(** * negasus/cache: a bytes cache with TTL and a size limit

    A shallow embedding of [cache.go] and [background.go].  Every public
    method of [*Cache] and every pass of a background goroutine is a
    function on a [World]: the [Cache] object together with the number of
    [go c.compact()] goroutines that were started and have not run yet.
    Clock readings ([time.Now()]) and the iteration order of a Go [range]
    over a map are inputs.

    Two semantics of runs follow.  [step] and [run] take whole calls and
    passes one after the other, each from its start to its end: they are
    the runs in which no two calls overlap.  [act] and [acts] take the
    calls apart at their locks, so that a [Get], a put, a compaction and a
    pass of [clear] interleave with other goroutines as the code lets them;
    every run of whole calls is such an interleaved run
    ([run_interleaves]).  The properties of single calls and of particular
    runs are stated over the first; the invariants that depend on how
    calls overlap (the [expired] set against the storage map, the size
    counter against the stored bytes, the marks against the expiry times)
    are stated over the second. *)

From Stdlib Require Import ZArith Strings.Byte.
From stdpp Require Import base gmap sets list strings sorting.

Local Open Scope Z_scope.
Set Warnings "-clear-no-such-hyp".

(** ** Machine integers *)

Module Int64.

Definition modulus : Z := 2 ^ 64.
Definition min_signed : Z := - 2 ^ 63.
Definition max_signed : Z := 2 ^ 63 - 1.

(** Two's complement wrap-around of an [int64] result. *)
Definition wrap (z : Z) : Z := (z + 2 ^ 63) mod modulus - 2 ^ 63.

Definition add (a b : Z) : Z := wrap (a + b).
Definition sub (a b : Z) : Z := wrap (a - b).

Definition in_range (z : Z) : Prop := min_signed <= z <= max_signed.

End Int64.

(** ** The part of package [time] the cache uses

    A [time.Time] is an instant, counted here in nanoseconds since Go's zero
    time (January 1, year 1, 00:00:00 UTC); a [time.Duration] is a number of
    nanoseconds.  The wall clock and the monotonic clock of a reading are
    taken to agree. *)

Module GoTime.

Definition Time : Type := Z.
Definition Duration : Type := Z.

Definition zero : Time := 0.
Definition IsZero (t : Time) : bool := t =? 0.
Definition Before (t u : Time) : bool := t <? u.
Definition After (t u : Time) : bool := u <? t.
Definition Add (t : Time) (d : Duration) : Time := t + d.

Definition Nanosecond : Duration := 1.
Definition Millisecond : Duration := 1000000.
Definition Second : Duration := 1000000000.
Definition Hour : Duration := 3600 * Second.

(** Seconds between year 1 and the Unix epoch ([unixToInternal]). *)
Definition unixToInternal : Z := 62135596800.

(** [UnixNano] is computed in [int64] and wraps outside 1678..2262. *)
Definition UnixNano (t : Time) : Z := Int64.wrap (t - unixToInternal * Second).

(** The instant [n] nanoseconds after the Unix epoch. *)
Definition Unix (n : Z) : Time := unixToInternal * Second + n.

End GoTime.

Import GoTime.

(** ** Data model ([cache.go]) *)

Inductive error : Type :=
  | ErrNotFound
  | ErrCallback (msg : string).

(** A Go result pair [([]byte, error)]; [None] is the [nil] error and the
    [nil] slice is the empty list. *)
Definition result : Type := list byte * option error.

Definition GetCallback : Type := string → result.

Record item : Type := Item {
  data : list byte;
  ttl : Time;
  lu : Time
}.

Record Cache : Type := MkCache {
  storage : gmap string item;
  expired : gset string;
  clearExpireTimout : Duration;
  checkExpireTimout : Duration;
  sizeLimit : Z;
  size : Z
}.

Definition len (d : list byte) : Z := Z.of_nat (length d).

Definition set_storage (f : gmap string item → gmap string item) (c : Cache) : Cache :=
  MkCache (f (storage c)) (expired c) (clearExpireTimout c) (checkExpireTimout c)
          (sizeLimit c) (size c).

Definition set_expired (f : gset string → gset string) (c : Cache) : Cache :=
  MkCache (storage c) (f (expired c)) (clearExpireTimout c) (checkExpireTimout c)
          (sizeLimit c) (size c).

Definition set_size (f : Z → Z) (c : Cache) : Cache :=
  MkCache (storage c) (expired c) (clearExpireTimout c) (checkExpireTimout c)
          (sizeLimit c) (f (size c)).

(** ** Options and the constructor *)

Inductive OptionFunc : Type :=
  | WithClearExpireTimeout (t : Duration)
  | WithCheckExpireTimeout (t : Duration)
  | WithSizeLimit (l : Z).

Definition apply_option (c : Cache) (o : OptionFunc) : Cache :=
  match o with
  | WithClearExpireTimeout t =>
      MkCache (storage c) (expired c) t (checkExpireTimout c) (sizeLimit c) (size c)
  | WithCheckExpireTimeout t =>
      MkCache (storage c) (expired c) (clearExpireTimout c) t (sizeLimit c) (size c)
  | WithSizeLimit l =>
      MkCache (storage c) (expired c) (clearExpireTimout c) (checkExpireTimout c) l (size c)
  end.

Definition defaultClearExpireTimeout : Duration := Hour.
Definition defaultCheckExpireTimeout : Duration := Hour.
Definition defaultSizeLimit : Z := 1024 * 1024.

(** ** The world and its state monad *)

Record World : Type := MkWorld {
  heap : Cache;
  compactions : nat
}.

Definition M (A : Type) : Type := World → A * World.

Definition ret {A} (a : A) : M A := λ w, (a, w).

Definition bind {A B} (m : M A) (k : A → M B) : M B :=
  λ w, let (a, w') := m w in k a w'.

Notation "x <~ m ;; k" := (bind m (λ x, k))
  (at level 100, m at next level, right associativity).
Notation "m ;;; k" := (bind m (λ _, k))
  (at level 100, right associativity).

(** Read the cache object. *)
Definition load : M Cache := λ w, (heap w, w).

(** Update the cache object in place. *)
Definition modify (f : Cache → Cache) : M unit :=
  λ w, (tt, MkWorld (f (heap w)) (compactions w)).

(** [atomic.AddInt64(&c.size, delta)]: returns the new value. *)
Definition AddInt64_size (delta : Z) : M Z :=
  λ w, let n := Int64.add (size (heap w)) delta in
       (n, MkWorld (set_size (λ _, n) (heap w)) (compactions w)).

(** [go c.compact()]: one more compaction goroutine waits to run. *)
Definition go_compact : M unit :=
  λ w, (tt, MkWorld (heap w) (S (compactions w))).

Definition exec {A} (m : M A) (w : World) : World := snd (m w).
Definition eval {A} (m : M A) (w : World) : A := fst (m w).

Definition New (options : list OptionFunc) : World :=
  MkWorld
    (foldl apply_option
       (MkCache ∅ ∅ defaultClearExpireTimeout defaultCheckExpireTimeout
                defaultSizeLimit 0)
       options)
    0.

(** ** The public methods ([cache.go]) *)

(** [Get] reads the clock twice: [now] for the expiry test and [now'] for
    the new [lu]. *)
Definition Get (now now' : Time) (key : string) : M result :=
  c <~ load ;;
  match storage c !! key with
  | None => ret ([], Some ErrNotFound)
  | Some i =>
      if negb (IsZero (ttl i)) && Before (ttl i) now then
        modify (set_expired (λ e, {[key]} ∪ e)) ;;;
        ret ([], Some ErrNotFound)
      else
        modify (set_storage (λ s, <[key := Item (data i) (ttl i) now']> s)) ;;;
        ret (data i, None)
  end.

Definition Has (now : Time) (key : string) : M bool :=
  c <~ load ;;
  match storage c !! key with
  | None => ret false
  | Some i => ret (IsZero (ttl i) || After (ttl i) now)
  end.

Definition Delete (key : string) : M unit :=
  c <~ load ;;
  match storage c !! key with
  | None => ret tt
  | Some i =>
      modify (set_storage (λ s, delete key s)) ;;;
      _ <~ AddInt64_size (- len (data i)) ;;
      ret tt
  end.

Definition Put (now : Time) (key : string) (d : list byte) : M unit :=
  c <~ load ;;
  if sizeLimit c <=? len d then ret tt
  else
    modify (set_storage (λ s, <[key := Item d zero now]> s)) ;;;
    modify (set_expired (λ e, e ∖ {[key]})) ;;;
    n <~ AddInt64_size (len d) ;;
    if sizeLimit c <? n then go_compact else ret tt.

(** [PutWithTTL] reads the clock twice: [now] for the expiry time and
    [now'] for [lu]. *)
Definition PutWithTTL (now now' : Time) (key : string) (d : list byte)
    (t : Duration) : M unit :=
  c <~ load ;;
  if sizeLimit c <=? len d then ret tt
  else
    modify (set_storage (λ s, <[key := Item d (Add now t) now']> s)) ;;;
    modify (set_expired (λ e, e ∖ {[key]})) ;;;
    n <~ AddInt64_size (len d) ;;
    if sizeLimit c <? n then go_compact else ret tt.

Definition GetOrNew (now now' put_now : Time) (key : string) (cb : GetCallback)
    : M result :=
  r <~ Get now now' key ;;
  match snd r with
  | None => ret (fst r, None)
  | Some _ =>
      match cb key with
      | (_, Some err) => ret ([], Some err)
      | (d, None) => Put put_now key d ;;; ret (d, None)
      end
  end.

Definition GetOrNewWithTTL (now now' put_now put_now' : Time) (key : string)
    (t : Duration) (cb : GetCallback) : M result :=
  r <~ Get now now' key ;;
  match snd r with
  | None => ret (fst r, None)
  | Some _ =>
      match cb key with
      | (_, Some err) => ret ([], Some err)
      | (d, None) => PutWithTTL put_now put_now' key d t ;;; ret (d, None)
      end
  end.

(** ** The background goroutines ([background.go]) *)

(** The first loop of [compact]: [keys] is the order in which [range
    c.storage] yields the keys.  [s] maps a timestamp to the key seen last
    with it and [t] collects the timestamps.  [int] is taken to be 64 bits
    wide, so that [int(i.lu.UnixNano())] loses nothing. *)
Definition snapshot_step (st : gmap string item) (acc : gmap Z string * list Z)
    (key : string) : gmap Z string * list Z :=
  match st !! key with
  | None => acc
  | Some i =>
      let n := UnixNano (lu i) in
      (<[n := key]> (fst acc), snd acc ++ [n])
  end.

Definition snapshot (keys : list string) (st : gmap string item)
    : gmap Z string * list Z :=
  foldl (snapshot_step st) (∅, []) keys.

(** The second loop of [compact], over the sorted timestamps.  A timestamp
    missing from [s] would yield the empty key, as a Go map does. *)
Fixpoint evict (s : gmap Z string) (t : list Z) (c : Cache) : Cache :=
  match t with
  | [] => c
  | skey :: t' =>
      let key := default ""%string (s !! skey) in
      match storage c !! key with
      | None => evict s t' c
      | Some i =>
          let c' :=
            set_size (λ n, Int64.add n (- len (data i)))
              (set_storage (λ m, delete key m) c) in
          if size c' <? sizeLimit c' then c' else evict s t' c'
      end
  end.

Definition compact (keys : list string) : M unit :=
  c <~ load ;;
  let '(s, t) := snapshot keys (storage c) in
  modify (evict s (merge_sort Z.le t)).

(** One pass of the loop of [scanExpired], with the clock reading [now]. *)
Definition scanExpired (now : Time) : M unit :=
  modify (λ c,
    set_expired (λ e,
      map_fold (λ key i acc,
        if negb (IsZero (ttl i)) && Before (ttl i) now
        then {[key]} ∪ acc else acc) e (storage c)) c).

(** The body of the loop of [clear] for one key of [c.expired]. *)
Definition clear_key (key : string) (c : Cache) : Cache :=
  let c := set_expired (λ e, e ∖ {[key]}) c in
  match storage c !! key with
  | None => c
  | Some i =>
      set_size (λ n, Int64.add n (- len (data i)))
        (set_storage (λ m, delete key m) c)
  end.

(** One pass of the loop of [clear]. *)
Definition clear : M unit :=
  modify (λ c, set_fold clear_key c (expired c)).

(** ** Runs of the system *)

Inductive Event : Type :=
  | EvGet (now now' : Time) (key : string)
  | EvGetOrNew (now now' put_now : Time) (key : string) (cb : GetCallback)
  | EvGetOrNewWithTTL (now now' put_now put_now' : Time) (key : string)
      (t : Duration) (cb : GetCallback)
  | EvHas (now : Time) (key : string)
  | EvDelete (key : string)
  | EvPut (now : Time) (key : string) (d : list byte)
  | EvPutWithTTL (now now' : Time) (key : string) (d : list byte) (t : Duration)
  | EvScanExpired (now : Time)
  | EvClear
  | EvCompact (keys : list string).

(** The keys of the storage map, in the order of [map_to_list]. *)
Definition storage_keys (c : Cache) : list string := (map_to_list (storage c)).*1.

(** One whole call of a method or one whole pass of a goroutine, from its
    start to its end with nothing else in between.  A started compaction
    can run when one is waiting; it sees the keys of the storage map in
    some order.  Calls that overlap are the subject of [act] below. *)
Definition step (e : Event) (w : World) : option World :=
  match e with
  | EvGet now now' key => Some (exec (Get now now' key) w)
  | EvGetOrNew now now' pn key cb => Some (exec (GetOrNew now now' pn key cb) w)
  | EvGetOrNewWithTTL now now' pn pn' key t cb =>
      Some (exec (GetOrNewWithTTL now now' pn pn' key t cb) w)
  | EvHas now key => Some (exec (Has now key) w)
  | EvDelete key => Some (exec (Delete key) w)
  | EvPut now key d => Some (exec (Put now key d) w)
  | EvPutWithTTL now now' key d t => Some (exec (PutWithTTL now now' key d t) w)
  | EvScanExpired now => Some (exec (scanExpired now) w)
  | EvClear => Some (exec clear w)
  | EvCompact keys =>
      match compactions w with
      | O => None
      | S n =>
          if decide (keys ≡ₚ storage_keys (heap w))
          then Some (exec (compact keys) (MkWorld (heap w) n))
          else None
      end
  end.

Fixpoint run (tr : list Event) (w : World) : option World :=
  match tr with
  | [] => Some w
  | e :: tr' =>
      match step e w with
      | None => None
      | Some w' => run tr' w'
      end
  end.

Definition reachable (w : World) : Prop :=
  ∃ options tr, run tr (New options) = Some w.

(** The true sum of [len(data)] over the entries of the storage map. *)
Definition total_size (st : gmap string item) : Z :=
  map_fold (λ _ i acc, acc + len (data i)) 0 st.

(** ** Sample values *)

Definition b10 : list byte := [x10].
Definition b12345 : list byte := [x31; x32; x33; x34; x35].

(** ** Vocabulary of the properties *)

(** The expiry time of [i] is set and before [now]. *)
Definition past (now : Time) (i : item) : Prop := ttl i ≠ zero ∧ ttl i < now.

(** The transitions that can take the mark of [k] out of [expired]: the
    drain of [clear], and a put under the key [k], called directly or by
    [GetOrNew] and [GetOrNewWithTTL]. *)
Definition discards_mark (e : Event) (k : string) : bool :=
  match e with
  | EvClear => true
  | EvPut _ key _ => bool_decide (key = k)
  | EvPutWithTTL _ _ key _ _ => bool_decide (key = k)
  | EvGetOrNew _ _ _ key _ => bool_decide (key = k)
  | EvGetOrNewWithTTL _ _ _ _ key _ _ => bool_decide (key = k)
  | _ => false
  end.

(** [k] was stored in [c] and is no longer stored in [c']. *)
Definition evicted (c c' : Cache) (k : string) : Prop :=
  is_Some (storage c !! k) ∧ storage c' !! k = None.

(** The [lu] of the entry stored under [k], if any. *)
Definition lastUsed (c : Cache) (k : string) : option Time :=
  lu <$> storage c !! k.

(** Three puts of five bytes: ["a"] and ["b"] at the same clock reading,
    ["c"] one nanosecond later. *)
Definition same_instant : list Event :=
  [EvPut (Unix 1) "a" b12345; EvPut (Unix 1) "b" b12345; EvPut (Unix 2) "c" b12345].

(** The size counter agrees with the true sum, up to [int64] wrap-around. *)
Definition accounted (c : Cache) : Prop :=
  size c = Int64.wrap (total_size (storage c)).

(** The transition stores under a key that is stored: a [Put] or a
    [PutWithTTL] that passes the size test, and a [GetOrNew] or a
    [GetOrNewWithTTL] whose [Get] finds the entry past its expiry time,
    whose callback returns no error and whose put passes the size test.
    A hit, a failing callback and a put that the size test rejects store
    nothing. *)
Definition overwrites (e : Event) (w : World) : Prop :=
  match e with
  | EvPut _ key d =>
      is_Some (storage (heap w) !! key) ∧ len d < sizeLimit (heap w)
  | EvPutWithTTL _ _ key d _ =>
      is_Some (storage (heap w) !! key) ∧ len d < sizeLimit (heap w)
  | EvGetOrNew now _ _ key cb =>
      ∃ i, storage (heap w) !! key = Some i ∧ past now i
           ∧ snd (cb key) = None ∧ len (fst (cb key)) < sizeLimit (heap w)
  | EvGetOrNewWithTTL now _ _ _ key _ cb =>
      ∃ i, storage (heap w) !! key = Some i ∧ past now i
           ∧ snd (cb key) = None ∧ len (fst (cb key)) < sizeLimit (heap w)
  | _ => False
  end.

(** The timestamp under which [compact] files the entry of [key]. *)
Definition stamp (st : gmap string item) (key : string) : Z :=
  from_option (λ i, UnixNano (lu i)) 0 (st !! key).

(** No two stored entries have the same timestamp. *)
Definition distinct_stamps (st : gmap string item) : Prop :=
  ∀ k1 k2, is_Some (st !! k1) → is_Some (st !! k2) →
           stamp st k1 = stamp st k2 → k1 = k2.

(** Take the entry of [key], if any, out of the storage map and its length
    out of the size counter. *)
Definition remove_key (c : Cache) (key : string) : Cache :=
  match storage c !! key with
  | None => c
  | Some i =>
      set_size (λ n, Int64.add n (- len (data i)))
        (set_storage (λ m, delete key m) c)
  end.

Definition remove_keys (keys : list string) (c : Cache) : Cache :=
  foldl remove_key c keys.

(** The key that [compact] finds in its map [s] under a timestamp. *)
Definition key_at (s : gmap Z string) (n : Z) : string :=
  default ""%string (s !! n).

(** An instant whose [UnixNano] does not wrap (years 1678 to 2262). *)
Definition stampable (t : Time) : Prop :=
  Int64.in_range (t - unixToInternal * Second).

(** The cache of [TestPut_compact]: [sizeLimit = 20] and three entries of
    five bytes last used one, two and three seconds before [now]. *)
Definition test_compact_world (now : Time) : World :=
  MkWorld
    (MkCache
       (<["1"%string := Item b12345 zero (Add now (-1 * Second))]>
          (<["2"%string := Item b12345 zero (Add now (-2 * Second))]>
             (<["3"%string := Item b12345 zero (Add now (-3 * Second))]> ∅)))
       ∅ defaultClearExpireTimeout defaultCheckExpireTimeout 20 15)
    0.

(** Three puts of five bytes at one and the same clock reading. *)
Definition one_instant : list Event :=
  [EvPut (Unix 1) "a" b12345; EvPut (Unix 1) "b" b12345; EvPut (Unix 1) "c" b12345].


(** ** Vocabulary of the further properties *)

(** The entry of [key] can be served at the clock reading [now]: it has no
    expiry time or its expiry time is not before [now] (the test of [Get]). *)
Definition live (now : Time) (i : item) : Prop := ttl i = zero ∨ now <= ttl i.

(** The configuration fields of a cache. *)
Definition config (c : Cache) : Duration * Duration * Z :=
  (clearExpireTimout c, checkExpireTimout c, sizeLimit c).

(** Every stored entry is shorter than the size limit. *)
Definition below_limit (c : Cache) : Prop :=
  ∀ k i, storage c !! k = Some i → len (data i) < sizeLimit c.


(** ** Interleaved runs

    The methods do not hold one lock from start to end.  [Get] looks the
    key up under [c.mx.RLock] and releases it before it tests the expiry
    time; it then marks the key under [c.expMx] or writes [i.lu] with no
    lock at all.  [Put] and [PutWithTTL] store under both locks and add to
    the size counter after releasing them.  [compact] takes its snapshot
    under [c.mx.RLock] and evicts later under [c.mx.Lock], reading the size
    counter after each eviction; [clear] holds both locks for its loop.

    [Sys] is the cache together with the calls and passes that have started
    and not finished, and [act] is one atomic action of one goroutine: a
    region under a lock, the unlocked write of [i.lu], an [atomic.AddInt64],
    or one iteration of a loop that holds a write lock while the size
    counter can change under it.  What runs beside a region under a lock
    is the unlocked write of [i.lu], an [atomic.AddInt64] of a put, a
    region under a read lock beside another one, or the marking of [Get]
    beside a region that holds [c.mx] alone; none of them reads or writes
    what the region writes, except that the first loop of [compact] reads
    the [i.lu] a [Get] may be writing, and that write is taken before or
    after the loop.  [GetOrNew] and [GetOrNewWithTTL] are a [Get] followed
    by a put of the callback's data by the same goroutine: their actions
    are those of [Get] and of the puts. *)

(** A [Get] that has looked its key up and holds the item pointer: the
    identity of the item object and the item as read ([data] and [ttl] are
    never written after the item is made). *)
Record Flight : Type := MkFlight {
  fl_key : string;
  fl_obj : nat;
  fl_item : item
}.

(** The pass that holds a write lock: [compact] in its second loop, with
    its map [s], the timestamps left and whether the size test of the
    current iteration is still to come, or [clear] with the keys left. *)
Inductive Holder : Type :=
  | Evicting (s : gmap Z string) (t : list Z) (checking : bool)
  | Clearing (keys : list string).

Record Sys : Type := MkSys {
  mem : Cache;
  objs : gmap string nat;
  fresh : nat;
  started : nat;
  gets : list Flight;
  counts : list Z;
  sweeps : list (gmap Z string * list Z);
  busy : option Holder
}.

Definition set_mem (f : Cache → Cache) (σ : Sys) : Sys :=
  MkSys (f (mem σ)) (objs σ) (fresh σ) (started σ) (gets σ) (counts σ)
        (sweeps σ) (busy σ).

Definition set_gets (f : list Flight → list Flight) (σ : Sys) : Sys :=
  MkSys (mem σ) (objs σ) (fresh σ) (started σ) (f (gets σ)) (counts σ)
        (sweeps σ) (busy σ).

Definition set_busy (b : option Holder) (σ : Sys) : Sys :=
  MkSys (mem σ) (objs σ) (fresh σ) (started σ) (gets σ) (counts σ)
        (sweeps σ) b.

Inductive Act : Type :=
  | AGetLookup (key : string)
  | AGetFinish (n : nat) (now now' : Time)
  | AHas (now : Time) (key : string)
  | ADelete (key : string)
  | APutStore (now : Time) (key : string) (d : list byte)
  | APutWithTTLStore (now now' : Time) (key : string) (d : list byte) (t : Duration)
  | APutCount (n : nat)
  | AScanExpired (now : Time)
  | AClearLock (keys : list string)
  | AClearKey
  | ACompactSnapshot (keys : list string)
  | ACompactLock (n : nat)
  | ACompactEvict.

(** [Get] l.82-87: the lookup.  A missing key ends the call. *)
Definition get_lookup (key : string) (σ : Sys) : Sys :=
  match storage (mem σ) !! key with
  | None => σ
  | Some i =>
      set_gets (λ g, g ++ [MkFlight key (default 0%nat (objs σ !! key)) i]) σ
  end.

(** [i.lu = time.Now()] through the pointer a [Get] holds: it changes the
    storage map only if the item object is still the one stored. *)
Definition touch (f : Flight) (now' : Time) (σ : Sys) : Sys :=
  match storage (mem σ) !! fl_key f with
  | None => σ
  | Some j =>
      if decide (objs σ !! fl_key f = Some (fl_obj f))
      then set_mem (set_storage (λ s, <[fl_key f := Item (data j) (ttl j) now']> s)) σ
      else σ
  end.

(** [Get] l.89-98 for the [n]-th call in progress.  Marking needs
    [c.expMx], which [clear] may hold. *)
Definition get_finish (n : nat) (now now' : Time) (σ : Sys) : option Sys :=
  match gets σ !! n with
  | None => None
  | Some f =>
      let σ' := set_gets (λ g, delete n g) σ in
      if negb (IsZero (ttl (fl_item f))) && Before (ttl (fl_item f)) now then
        match busy σ with
        | Some (Clearing _) => None
        | _ => Some (set_mem (set_expired (λ e, {[fl_key f]} ∪ e)) σ')
        end
      else Some (touch f now' σ')
  end.

(** What [Get] returns when the [n]-th call in progress finishes. *)
Definition get_result (n : nat) (now : Time) (σ : Sys) : option result :=
  match gets σ !! n with
  | None => None
  | Some f =>
      if negb (IsZero (ttl (fl_item f))) && Before (ttl (fl_item f)) now
      then Some ([], Some ErrNotFound)
      else Some (data (fl_item f), None)
  end.

(** [Put] l.160-172 and [PutWithTTL] l.181-194: the guard and the region
    under both locks, storing the new item object [i]. *)
Definition put_store (key : string) (i : item) (σ : Sys) : Sys :=
  if sizeLimit (mem σ) <=? len (data i) then σ
  else
    MkSys
      (set_expired (λ e, e ∖ {[key]}) (set_storage (λ s, <[key := i]> s) (mem σ)))
      (<[key := fresh σ]> (objs σ)) (S (fresh σ)) (started σ) (gets σ)
      (counts σ ++ [len (data i)]) (sweeps σ) (busy σ).

(** [Put] l.174-177 and [PutWithTTL] l.196-199 for the [n]-th put that has
    stored: the addition to the size counter and the start of [compact]. *)
Definition put_count (n : nat) (σ : Sys) : option Sys :=
  match counts σ !! n with
  | None => None
  | Some x =>
      let m := Int64.add (size (mem σ)) x in
      Some (MkSys (set_size (λ _, m) (mem σ)) (objs σ) (fresh σ)
              (if sizeLimit (mem σ) <? m then S (started σ) else started σ)
              (gets σ) (delete n (counts σ)) (sweeps σ) (busy σ))
  end.

(** A method that runs under one lock from start to end, on the cache. *)
Definition locked {A} (m : M A) (σ : Sys) : Sys :=
  set_mem (λ c, heap (exec m (MkWorld c (started σ)))) σ.

(** One iteration of the loop of [clear], or its end. *)
Definition clear_next (keys : list string) (σ : Sys) : Sys :=
  match keys with
  | [] => set_busy None σ
  | key :: keys' => set_busy (Some (Clearing keys')) (set_mem (clear_key key) σ)
  end.

(** The second loop of [compact], one step: the size test of an iteration
    that has evicted, or the next timestamp. *)
Definition evict_next (s : gmap Z string) (t : list Z) (checking : bool)
    (σ : Sys) : Sys :=
  if checking then
    if size (mem σ) <? sizeLimit (mem σ) then set_busy None σ
    else set_busy (Some (Evicting s t false)) σ
  else
    match t with
    | [] => set_busy None σ
    | skey :: t' =>
        let key := default ""%string (s !! skey) in
        match storage (mem σ) !! key with
        | None => set_busy (Some (Evicting s t' false)) σ
        | Some i =>
            set_busy (Some (Evicting s t' true))
              (set_mem (λ c, set_size (λ n, Int64.add n (- len (data i)))
                               (set_storage (λ m, delete key m) c)) σ)
        end
    end.

Definition act (a : Act) (σ : Sys) : option Sys :=
  match a, busy σ with
  | AGetLookup key, None => Some (get_lookup key σ)
  | AGetFinish n now now', _ => get_finish n now now' σ
  | AHas now key, None => Some (locked (Has now key) σ)
  | ADelete key, None => Some (locked (Delete key) σ)
  | APutStore now key d, None => Some (put_store key (Item d zero now) σ)
  | APutWithTTLStore now now' key d t, None =>
      Some (put_store key (Item d (Add now t) now') σ)
  | APutCount n, _ => put_count n σ
  | AScanExpired now, None => Some (locked (scanExpired now) σ)
  | AClearLock keys, None =>
      if decide (keys ≡ₚ elements (expired (mem σ)))
      then Some (set_busy (Some (Clearing keys)) σ) else None
  | AClearKey, Some (Clearing keys) => Some (clear_next keys σ)
  | ACompactSnapshot keys, None =>
      match started σ with
      | O => None
      | S n =>
          if decide (keys ≡ₚ storage_keys (mem σ)) then
            let '(s, t) := snapshot keys (storage (mem σ)) in
            Some (MkSys (mem σ) (objs σ) (fresh σ) n (gets σ) (counts σ)
                    (sweeps σ ++ [(s, merge_sort Z.le t)]) None)
          else None
      end
  | ACompactLock n, None =>
      match sweeps σ !! n with
      | None => None
      | Some (s, t) =>
          Some (MkSys (mem σ) (objs σ) (fresh σ) (started σ) (gets σ) (counts σ)
                  (delete n (sweeps σ)) (Some (Evicting s t false)))
      end
  | ACompactEvict, Some (Evicting s t checking) => Some (evict_next s t checking σ)
  | _, _ => None
  end.

Fixpoint acts (l : list Act) (σ : Sys) : option Sys :=
  match l with
  | [] => Some σ
  | a :: l' =>
      match act a σ with
      | None => None
      | Some σ' => acts l' σ'
      end
  end.

(** The system right after [New]. *)
Definition boot (options : list OptionFunc) : Sys :=
  MkSys (heap (New options)) ∅ 0 0 [] [] [] None.

(** No call or pass is in progress. *)
Definition quiet (σ : Sys) : Prop :=
  gets σ = [] ∧ counts σ = [] ∧ sweeps σ = [] ∧ busy σ = None.

(** The keys a [Get] in progress can still mark: it has looked the key up
    and the item it holds has an expiry time. *)
Definition held (σ : Sys) : list string :=
  fl_key <$> filter (λ f, ttl (fl_item f) ≠ zero) (gets σ).

(** The action removes no entry whose key is in [expired] or can still be
    marked by a [Get] in progress: [Delete] and an eviction of [compact]
    on a key that is neither, a step of [clear] on a key that no [Get] in
    progress can still mark. *)
Definition careful (a : Act) (σ : Sys) : bool :=
  match a, busy σ with
  | ADelete key, _ =>
      bool_decide ((key ∉ expired (mem σ)) ∧ (key ∉ held σ))
  | AClearKey, Some (Clearing (key :: _)) =>
      bool_decide (key ∉ held σ)
  | ACompactEvict, Some (Evicting s (skey :: _) false) =>
      bool_decide ((default ""%string (s !! skey) ∉ expired (mem σ))
                   ∧ (default ""%string (s !! skey) ∉ held σ))
  | _, _ => true
  end.

(** A property [P] of actions holds at every action of the run. *)
Fixpoint throughout (P : Act → Sys → bool) (l : list Act) (σ : Sys) : bool :=
  match l with
  | [] => true
  | a :: l' =>
      P a σ && match act a σ with
               | Some σ' => throughout P l' σ'
               | None => true
               end
  end.

(** Every key of [expired], and every key a [Get] in progress can still
    mark, is a key of the storage map. *)
Definition marks_stored (σ : Sys) : Prop :=
  (∀ k, k ∈ expired (mem σ) → is_Some (storage (mem σ) !! k))
  ∧ (∀ k, k ∈ held σ → is_Some (storage (mem σ) !! k)).

(** The bytes that puts have stored and not yet added to the size
    counter. *)
Definition uncounted (σ : Sys) : Z := foldr Z.add 0 (counts σ).

(** The length of the data stored under [key], [0] for a missing key. *)
Definition stored_bytes (c : Cache) (key : string) : Z :=
  from_option (λ j, len (data j)) 0 (storage c !! key).

(** The action replaces no entry that holds bytes: it is not a put that
    passes the size test on a key stored with data of non-zero length. *)
Definition stores_fresh (a : Act) (σ : Sys) : bool :=
  match a with
  | APutStore _ key d =>
      negb (bool_decide (len d < sizeLimit (mem σ) ∧ 0 < stored_bytes (mem σ) key))
  | APutWithTTLStore _ _ key d _ =>
      negb (bool_decide (len d < sizeLimit (mem σ) ∧ 0 < stored_bytes (mem σ) key))
  | _ => true
  end.

(** The size counter and the additions still to come make up the true
    sum, up to [int64] wrap-around. *)
Definition accounted_with_pending (σ : Sys) : Prop :=
  Int64.wrap (size (mem σ) + uncounted σ) = Int64.wrap (total_size (storage (mem σ))).

(** The action does not store under a key that a [Get] in progress can
    still mark. *)
Definition spares_held (a : Act) (σ : Sys) : bool :=
  match a with
  | APutStore _ key d =>
      negb (bool_decide (len d < sizeLimit (mem σ) ∧ key ∈ held σ))
  | APutWithTTLStore _ _ key d _ =>
      negb (bool_decide (len d < sizeLimit (mem σ) ∧ key ∈ held σ))
  | _ => true
  end.

(** The clock readings an action takes. *)
Definition act_readings (a : Act) : list Time :=
  match a with
  | AGetFinish _ now now' => [now; now']
  | AHas now _ => [now]
  | APutStore now _ _ => [now]
  | APutWithTTLStore now now' _ _ _ => [now; now']
  | AScanExpired now => [now]
  | _ => []
  end.

(** Every mark is on a missing key or on an entry past its expiry time at
    one of the readings [R], and every [Get] in progress that can still
    mark holds the expiry time of the entry stored under its key. *)
Definition marks_stale (R : list Time) (σ : Sys) : Prop :=
  (∀ k i, k ∈ expired (mem σ) → storage (mem σ) !! k = Some i →
          ttl i ≠ zero ∧ ∃ r, r ∈ R ∧ ttl i < r)
  ∧ (∀ f i, f ∈ gets σ → ttl (fl_item f) ≠ zero →
            storage (mem σ) !! fl_key f = Some i →
            ttl i = ttl (fl_item f)).

(** The system in which the world [w] is at rest: the cache and the count
    of started compactions are those of [w], nothing is in progress, and
    every stored item is a known object. *)
Definition at_rest (w : World) (σ : Sys) : Prop :=
  mem σ = heap w
  ∧ started σ = compactions w
  ∧ quiet σ
  ∧ ∀ k, is_Some (storage (heap w) !! k) → is_Some (objs σ !! k).


(** * Properties *)

Example Put_Get_sample :
  eval (Get (Unix 7) (Unix 8) "foo") (exec (Put (Unix 5) "foo" b10) (New []))
  = (b10, None).
Proof. vm_compute. reflexivity. Qed.

(** ** Equations of the methods *)

Ltac unfold_M :=
  unfold exec, eval, bind, load, modify, ret, AddInt64_size, go_compact in *;
  simpl in *.

Lemma Zleb_false (a b : Z) : b < a → (a <=? b) = false.
Proof. intros. apply Z.leb_gt. done. Qed.

Lemma Zleb_true (a b : Z) : a <= b → (a <=? b) = true.
Proof. intros. apply Z.leb_le. done. Qed.

Lemma Get_absent now now' key w :
  storage (heap w) !! key = None →
  Get now now' key w = (([], Some ErrNotFound), w).
Proof. intros H. unfold Get. unfold_M. rewrite H. done. Qed.

Lemma Get_expired now now' key w i :
  storage (heap w) !! key = Some i →
  ttl i ≠ zero → ttl i < now →
  Get now now' key w =
    (([], Some ErrNotFound),
     MkWorld (set_expired (λ e, {[key]} ∪ e) (heap w)) (compactions w)).
Proof.
  intros H Hz Hlt. unfold Get. unfold_M. rewrite H.
  unfold IsZero, Before, zero in *.
  destruct (Z.eqb_spec (ttl i) 0) as [|_]; [done|].
  destruct (Z.ltb_spec (ttl i) now); [done|lia].
Qed.

Lemma Get_live now now' key w i :
  storage (heap w) !! key = Some i →
  ttl i = zero ∨ now <= ttl i →
  Get now now' key w =
    ((data i, None),
     MkWorld (set_storage (λ s, <[key := Item (data i) (ttl i) now']> s) (heap w))
             (compactions w)).
Proof.
  intros H Hlive. unfold Get. unfold_M. rewrite H.
  unfold IsZero, Before, zero in *.
  destruct (Z.eqb_spec (ttl i) 0) as [|Hnz]; [done|].
  destruct (Z.ltb_spec (ttl i) now); [lia|done].
Qed.

Lemma Put_rejected now key d w :
  sizeLimit (heap w) <= len d → Put now key d w = (tt, w).
Proof. intros H. unfold Put. unfold_M. rewrite Zleb_true; done. Qed.

Lemma PutWithTTL_rejected now now' key d t w :
  sizeLimit (heap w) <= len d → PutWithTTL now now' key d t w = (tt, w).
Proof. intros H. unfold PutWithTTL. unfold_M. rewrite Zleb_true; done. Qed.

Lemma Put_stored now key d w :
  len d < sizeLimit (heap w) →
  heap (exec (Put now key d) w) =
    MkCache (<[key := Item d zero now]> (storage (heap w)))
            (expired (heap w) ∖ {[key]})
            (clearExpireTimout (heap w)) (checkExpireTimout (heap w))
            (sizeLimit (heap w)) (Int64.add (size (heap w)) (len d)).
Proof.
  intros H. unfold Put. unfold_M. rewrite Zleb_false by done.
  by destruct (_ <? _).
Qed.

Lemma PutWithTTL_stored now now' key d t w :
  len d < sizeLimit (heap w) →
  heap (exec (PutWithTTL now now' key d t) w) =
    MkCache (<[key := Item d (Add now t) now']> (storage (heap w)))
            (expired (heap w) ∖ {[key]})
            (clearExpireTimout (heap w)) (checkExpireTimout (heap w))
            (sizeLimit (heap w)) (Int64.add (size (heap w)) (len d)).
Proof.
  intros H. unfold PutWithTTL. unfold_M. rewrite Zleb_false by done.
  by destruct (_ <? _).
Qed.

Lemma Has_exec now key w : exec (Has now key) w = w.
Proof. unfold Has. unfold_M. by destruct (storage (heap w) !! key). Qed.

Lemma Delete_absent key w :
  storage (heap w) !! key = None → Delete key w = (tt, w).
Proof. intros H. unfold Delete. unfold_M. by rewrite H. Qed.

Lemma Delete_present key w i :
  storage (heap w) !! key = Some i →
  exec (Delete key) w =
    MkWorld
      (MkCache (delete key (storage (heap w))) (expired (heap w))
               (clearExpireTimout (heap w)) (checkExpireTimout (heap w))
               (sizeLimit (heap w))
               (Int64.add (size (heap w)) (- len (data i))))
      (compactions w).
Proof. intros H. unfold Delete. unfold_M. by rewrite H. Qed.

(** ** Lazy expiry on read *)

(** C4: when the entry stored under [key] has an expiry time that is set and
    already in the past, [Get] returns [ErrNotFound], adds [key] to the
    [expired] set and leaves the storage map, hence the entry itself, as it
    was. *)
Theorem Get_marks_expired_entry now now' key w i :
  storage (heap w) !! key = Some i →
  ttl i ≠ zero →
  ttl i < now →
  let w' := exec (Get now now' key) w in
  eval (Get now now' key) w = ([], Some ErrNotFound)
  ∧ expired (heap w') = {[key]} ∪ expired (heap w)
  ∧ key ∈ expired (heap w')
  ∧ storage (heap w') = storage (heap w)
  ∧ storage (heap w') !! key = Some i
  ∧ size (heap w') = size (heap w).
Proof.
  intros H Hz Hlt w'. subst w'. unfold exec, eval.
  rewrite (Get_expired _ _ _ _ _ H Hz Hlt). simpl.
  split_and!; try done. set_solver.
Qed.

Lemma Get_marks_expired_entry_witness :
  let w := exec (PutWithTTL (Unix 0) (Unix 0) "foo" b10 Second) (New []) in
  eval (Get (Unix (2 * Second)) (Unix (2 * Second)) "foo") w = ([], Some ErrNotFound)
  ∧ "foo" ∈ expired (heap (exec (Get (Unix (2 * Second)) (Unix (2 * Second)) "foo") w)).
Proof.
  intros w.
  destruct (Get_marks_expired_entry (Unix (2 * Second)) (Unix (2 * Second)) "foo" w
              (Item b10 (Add (Unix 0) Second) (Unix 0)))
    as (Hr & _ & Hin & _).
  - vm_compute. reflexivity.
  - vm_compute. discriminate.
  - vm_compute. reflexivity.
  - split; [exact Hr | exact Hin].
Defined.

(** ** Writes and the reads that follow them *)

(** C5: when [len(data) < sizeLimit], [Put(key, data)] followed directly by
    [Get(key)] succeeds and returns exactly [data], whatever the state before
    and whatever the clock readings. *)
Theorem Put_then_Get now g g' key d w :
  len d < sizeLimit (heap w) →
  eval (Get g g' key) (exec (Put now key d) w) = (d, None).
Proof.
  intros H. unfold eval at 1.
  rewrite (Get_live g g' key _ (Item d zero now)); [done| |by left].
  rewrite Put_stored by done. simpl. apply lookup_insert_eq.
Qed.

Lemma Put_then_Get_witness :
  eval (Get (Unix 7) (Unix 8) "foo") (exec (Put (Unix 5) "foo" b10) (New []))
  = (b10, None).
Proof. apply (Put_then_Get (Unix 5) (Unix 7) (Unix 8) "foo" b10 (New [])). vm_compute. reflexivity. Defined.

(** C6: after [PutWithTTL(k, d, t)] with [len(d) < sizeLimit] and [t > 0],
    stored at the clock reading [now] (no earlier than the zero time), a
    [Get(k)] whose clock reads at most [now + t] returns [d], and a [Get(k)]
    whose clock reads more than [now + t] returns [ErrNotFound]; no pass of
    [scanExpired] or [clear] is needed in between, and the second holds as
    well after the first has been served. *)
Theorem PutWithTTL_then_Get now now' g g' h h' k d t w :
  len d < sizeLimit (heap w) →
  0 < t →
  0 <= now →
  let w' := exec (PutWithTTL now now' k d t) w in
  (g <= now + t → eval (Get g g' k) w' = (d, None))
  ∧ (now + t < h → eval (Get h h' k) w' = ([], Some ErrNotFound))
  ∧ (g <= now + t → now + t < h →
     eval (Get h h' k) (exec (Get g g' k) w') = ([], Some ErrNotFound)).
Proof.
  intros Hlen Ht Hnow w'.
  assert (Hst : storage (heap w') !! k = Some (Item d (Add now t) now')).
  { subst w'. rewrite PutWithTTL_stored by done. simpl. apply lookup_insert_eq. }
  split_and!.
  - intros Hg. unfold eval.
    rewrite (Get_live g g' k _ _ Hst); [done|]. right. simpl. unfold Add. lia.
  - intros Hh. unfold eval.
    rewrite (Get_expired h h' k _ _ Hst); [done| |]; simpl; unfold Add, zero; lia.
  - intros Hg Hh. unfold eval, exec.
    rewrite (Get_live g g' k _ _ Hst) by (right; simpl; unfold Add; lia).
    simpl.
    rewrite (Get_expired h h' k _ (Item d (Add now t) g')); [done| | |].
    + simpl. apply lookup_insert_eq.
    + simpl. unfold Add, zero. lia.
    + simpl. unfold Add. lia.
Qed.

Lemma PutWithTTL_then_Get_witness :
  let w' := exec (PutWithTTL (Unix 0) (Unix 1) "foo" b10 Second) (New []) in
  eval (Get (Unix 5) (Unix 6) "foo") w' = (b10, None)
  ∧ eval (Get (Unix (2 * Second)) (Unix (2 * Second)) "foo") w'
    = ([], Some ErrNotFound).
Proof.
  intros w'.
  destruct (PutWithTTL_then_Get (Unix 0) (Unix 1) (Unix 5) (Unix 6)
              (Unix (2 * Second)) (Unix (2 * Second)) "foo" b10 Second (New []))
    as (Hbefore & Hafter & _).
  - vm_compute. reflexivity.
  - vm_compute. reflexivity.
  - vm_compute. discriminate.
  - split; [apply Hbefore | apply Hafter]; vm_compute; try reflexivity; discriminate.
Defined.

(** C7: when [len(data) >= sizeLimit], [Put] and [PutWithTTL] return (they
    have no error result) and leave the whole world as it was: storage map,
    size counter, [expired] set, and no compaction is started.  A [Get] of
    the key afterwards returns [ErrNotFound] when the key was not stored
    before. *)
Theorem Put_oversized_noop now now' g g' key d t w :
  sizeLimit (heap w) <= len d →
  Put now key d w = (tt, w)
  ∧ PutWithTTL now now' key d t w = (tt, w)
  ∧ (storage (heap w) !! key = None →
     eval (Get g g' key) (exec (Put now key d) w) = ([], Some ErrNotFound)
     ∧ eval (Get g g' key) (exec (PutWithTTL now now' key d t) w)
       = ([], Some ErrNotFound)).
Proof.
  intros H. split_and!.
  - by apply Put_rejected.
  - by apply PutWithTTL_rejected.
  - intros Habs. unfold exec, eval.
    rewrite Put_rejected, PutWithTTL_rejected by done. simpl.
    by rewrite Get_absent.
Qed.

Lemma Put_oversized_noop_witness :
  let w := New [WithSizeLimit 1] in
  Put (Unix 0) "foo" [x10; x20] w = (tt, w)
  ∧ PutWithTTL (Unix 0) (Unix 0) "foo" [x10; x20] Second w = (tt, w)
  ∧ eval (Get (Unix 1) (Unix 1) "foo") (exec (Put (Unix 0) "foo" [x10; x20]) w)
    = ([], Some ErrNotFound).
Proof.
  intros w.
  destruct (Put_oversized_noop (Unix 0) (Unix 0) (Unix 1) (Unix 1) "foo"
              [x10; x20] Second w) as (HP & HT & HG).
  - vm_compute. discriminate.
  - split_and!; [exact HP | exact HT |].
    apply HG. vm_compute. reflexivity.
Defined.

(** ** Frame properties *)

(** C9: [Has] changes nothing: the world after the call is the world before
    it, so the storage map with every [lu], the [expired] set and the size
    counter are the same; in particular a key whose entry is past its expiry
    time is not added to [expired]. *)
Theorem Has_pure now key w :
  exec (Has now key) w = w
  ∧ storage (heap (exec (Has now key) w)) = storage (heap w)
  ∧ expired (heap (exec (Has now key) w)) = expired (heap w)
  ∧ size (heap (exec (Has now key) w)) = size (heap w).
Proof.
  by rewrite Has_exec.
Qed.

(** On an entry past its expiry time [Has] answers [false] and marks
    nothing, where [Get] marks the key. *)
Example Has_vs_Get_on_expired :
  let w := exec (PutWithTTL (Unix 0) (Unix 0) "foo" b10 Second) (New []) in
  let late := Unix (2 * Second) in
  eval (Has late "foo") w = false
  ∧ expired (heap (exec (Has late "foo") w)) = ∅
  ∧ expired (heap (exec (Get late late "foo") w)) = {["foo"]}.
Proof. vm_compute. done. Qed.

(** ** What each transition does to the [expired] set and to the keys *)


Lemma past_test now i :
  negb (IsZero (ttl i)) && Before (ttl i) now = true ↔ past now i.
Proof.
  unfold past, IsZero, Before, zero.
  destruct (Z.eqb_spec (ttl i) 0), (Z.ltb_spec (ttl i) now); simpl; intuition lia.
Qed.

Lemma Get_cases now now' key w :
  (storage (heap w) !! key = None ∧ Get now now' key w = (([], Some ErrNotFound), w))
  ∨ (∃ i, storage (heap w) !! key = Some i ∧ past now i
       ∧ Get now now' key w =
           (([], Some ErrNotFound),
            MkWorld (set_expired (λ e, {[key]} ∪ e) (heap w)) (compactions w)))
  ∨ (∃ i, storage (heap w) !! key = Some i ∧ ¬ past now i
       ∧ Get now now' key w =
           ((data i, None),
            MkWorld (set_storage (λ s, <[key := Item (data i) (ttl i) now']> s) (heap w))
                    (compactions w))).
Proof.
  destruct (storage (heap w) !! key) as [i|] eqn:H.
  - right. destruct (negb (IsZero (ttl i)) && Before (ttl i) now) eqn:Hp.
    + left. exists i. apply past_test in Hp. split_and!; try done.
      destruct Hp. by apply (Get_expired _ _ _ _ i).
    + right. exists i.
      assert (¬ past now i) as Hn by (rewrite <- past_test, Hp; done).
      split_and!; try done. apply (Get_live _ _ _ _ i); [done|].
      unfold past, zero in *. lia.
  - left. split; [done|]. by apply Get_absent.
Qed.

Lemma evict_expired s t c : expired (evict s t c) = expired c.
Proof.
  revert c. induction t as [|skey t IH]; intros c; simpl; [done|].
  destruct (storage c !! default ""%string (s !! skey)) as [i|]; [|by apply IH].
  destruct (_ <? _); [done|]. by rewrite IH.
Qed.

Lemma evict_sizeLimit s t c : sizeLimit (evict s t c) = sizeLimit c.
Proof.
  revert c. induction t as [|skey t IH]; intros c; simpl; [done|].
  destruct (storage c !! default ""%string (s !! skey)) as [i|]; [|by apply IH].
  destruct (_ <? _); [done|]. by rewrite IH.
Qed.

Lemma scanExpired_expired now w k :
  k ∈ expired (heap (exec (scanExpired now) w)) ↔
  k ∈ expired (heap w) ∨ ∃ i, storage (heap w) !! k = Some i ∧ past now i.
Proof.
  unfold scanExpired. unfold_M.
  apply (map_fold_weak_ind
    (λ (r : gset string) (m : gmap string item),
       k ∈ r ↔ k ∈ expired (heap w) ∨ ∃ i, m !! k = Some i ∧ past now i)).
  - split; [by left|]. intros [?|(i & Hi & _)]; [done|].
    by rewrite lookup_empty in Hi.
  - intros j x m r Hj IH.
    destruct (negb (IsZero (ttl x)) && Before (ttl x) now) eqn:Hp.
    + apply past_test in Hp. rewrite elem_of_union, elem_of_singleton, IH.
      split.
      * intros [->|[?|(i & Hi & ?)]]; [right|by left|right].
        -- exists x. by rewrite lookup_insert_eq.
        -- exists i. rewrite lookup_insert_ne; [done|]. congruence.
      * intros [?|(i & Hi & ?)]; [by right; left|].
        destruct (decide (j = k)) as [->|Hne]; [by left|].
        rewrite lookup_insert_ne in Hi by done. right; right. by exists i.
    + assert (¬ past now x) as Hn by (rewrite <- past_test, Hp; done).
      rewrite IH. split.
      * intros [?|(i & Hi & ?)]; [by left|right].
        exists i. rewrite lookup_insert_ne; [done|]. congruence.
      * intros [?|(i & Hi & ?)]; [by left|right].
        destruct (decide (j = k)) as [->|Hne].
        -- rewrite lookup_insert_eq in Hi. by simplify_eq.
        -- rewrite lookup_insert_ne in Hi by done. by exists i.
Qed.

Lemma scanExpired_rest now w :
  storage (heap (exec (scanExpired now) w)) = storage (heap w)
  ∧ size (heap (exec (scanExpired now) w)) = size (heap w)
  ∧ compactions (exec (scanExpired now) w) = compactions w.
Proof. done. Qed.

Lemma clear_keys_expired l c :
  expired (foldr clear_key c l) = expired c ∖ list_to_set l.
Proof.
  induction l as [|k l IH]; simpl; [set_solver|].
  unfold clear_key at 1. simpl.
  destruct (storage (foldr clear_key c l) !! k); simpl; rewrite IH; set_solver.
Qed.

Lemma clear_keys_storage l c k :
  storage (foldr clear_key c l) !! k =
  if decide (k ∈ l) then None else storage c !! k.
Proof.
  induction l as [|j l IH]; simpl.
  - destruct (decide (k ∈ [])) as [H|]; [by inversion H|done].
  - unfold clear_key at 1. simpl.
    destruct (storage (foldr clear_key c l) !! j) as [i|] eqn:Hj; simpl.
    + destruct (decide (j = k)) as [->|Hne].
      * rewrite lookup_delete_eq. rewrite decide_True; [done|]. set_solver.
      * rewrite lookup_delete_ne by done. rewrite IH.
        repeat case_decide; set_solver.
    + destruct (decide (j = k)) as [->|Hne].
      * rewrite Hj. rewrite decide_True; [done|]. set_solver.
      * rewrite IH. repeat case_decide; set_solver.
Qed.

Lemma clear_expired w : expired (heap (exec clear w)) = ∅.
Proof.
  unfold clear. unfold_M. unfold set_fold. simpl.
  rewrite clear_keys_expired. apply set_eq. intros k.
  rewrite elem_of_difference, elem_of_list_to_set, elem_of_elements. set_solver.
Qed.

Lemma clear_storage w k :
  storage (heap (exec clear w)) !! k =
  if decide (k ∈ expired (heap w)) then None else storage (heap w) !! k.
Proof.
  unfold clear. unfold_M. unfold set_fold. simpl.
  rewrite clear_keys_storage.
  repeat case_decide; try done; exfalso; set_solver.
Qed.

Lemma wrap_in_range z : Int64.in_range z → Int64.wrap z = z.
Proof.
  unfold Int64.in_range, Int64.wrap, Int64.min_signed, Int64.max_signed, Int64.modulus.
  intros. rewrite Z.mod_small; lia.
Qed.

Lemma Put_cases now key d w :
  (sizeLimit (heap w) <= len d ∧ exec (Put now key d) w = w)
  ∨ (len d < sizeLimit (heap w)
     ∧ heap (exec (Put now key d) w) =
         MkCache (<[key := Item d zero now]> (storage (heap w)))
                 (expired (heap w) ∖ {[key]})
                 (clearExpireTimout (heap w)) (checkExpireTimout (heap w))
                 (sizeLimit (heap w)) (Int64.add (size (heap w)) (len d))).
Proof.
  destruct (Z_le_gt_dec (sizeLimit (heap w)) (len d)).
  - left. split; [done|]. unfold exec. by rewrite Put_rejected.
  - right. split; [lia|]. apply Put_stored. lia.
Qed.

Lemma PutWithTTL_cases now now' key d t w :
  (sizeLimit (heap w) <= len d ∧ exec (PutWithTTL now now' key d t) w = w)
  ∨ (len d < sizeLimit (heap w)
     ∧ heap (exec (PutWithTTL now now' key d t) w) =
         MkCache (<[key := Item d (Add now t) now']> (storage (heap w)))
                 (expired (heap w) ∖ {[key]})
                 (clearExpireTimout (heap w)) (checkExpireTimout (heap w))
                 (sizeLimit (heap w)) (Int64.add (size (heap w)) (len d))).
Proof.
  destruct (Z_le_gt_dec (sizeLimit (heap w)) (len d)).
  - left. split; [done|]. unfold exec. by rewrite PutWithTTL_rejected.
  - right. split; [lia|]. apply PutWithTTL_stored. lia.
Qed.

(** A miss of [GetOrNew] ends after the [Get] or after a [Put] of the
    callback's data. *)
Lemma GetOrNew_exec now now' pn key cb w :
  exec (GetOrNew now now' pn key cb) w = exec (Get now now' key) w
  ∨ ∃ d, exec (GetOrNew now now' pn key cb) w
         = exec (Put pn key d) (exec (Get now now' key) w).
Proof.
  unfold GetOrNew, exec, bind.
  destruct (Get now now' key w) as [[r [e|]] w1]; simpl; [|by left].
  destruct (cb key) as [d [err|]]; simpl; [by left|].
  right. exists d. by destruct (Put pn key d w1).
Qed.

Lemma GetOrNewWithTTL_exec now now' pn pn' key t cb w :
  exec (GetOrNewWithTTL now now' pn pn' key t cb) w = exec (Get now now' key) w
  ∨ ∃ d, exec (GetOrNewWithTTL now now' pn pn' key t cb) w
         = exec (PutWithTTL pn pn' key d t) (exec (Get now now' key) w).
Proof.
  unfold GetOrNewWithTTL, exec, bind.
  destruct (Get now now' key w) as [[r [e|]] w1]; simpl; [|by left].
  destruct (cb key) as [d [err|]]; simpl; [by left|].
  right. exists d. by destruct (PutWithTTL pn pn' key d t w1).
Qed.

Lemma Get_keeps_marks now now' key w :
  expired (heap w) ⊆ expired (heap (exec (Get now now' key) w)).
Proof.
  unfold exec.
  destruct (Get_cases now now' key w) as [[_ ->]|[(i & _ & _ & ->)|(i & _ & _ & ->)]];
    simpl; set_solver.
Qed.

Lemma Put_keeps_other_marks now key d w k :
  k ≠ key → k ∈ expired (heap w) → k ∈ expired (heap (exec (Put now key d) w)).
Proof.
  intros Hne Hk. destruct (Put_cases now key d w) as [[_ ->]|[_ ->]]; [done|].
  simpl. set_solver.
Qed.

Lemma PutWithTTL_keeps_other_marks now now' key d t w k :
  k ≠ key → k ∈ expired (heap w) →
  k ∈ expired (heap (exec (PutWithTTL now now' key d t) w)).
Proof.
  intros Hne Hk.
  destruct (PutWithTTL_cases now now' key d t w) as [[_ ->]|[_ ->]]; [done|].
  simpl. set_solver.
Qed.

Lemma Delete_expired key w : expired (heap (exec (Delete key) w)) = expired (heap w).
Proof.
  destruct (storage (heap w) !! key) as [i|] eqn:H.
  - by rewrite (Delete_present _ _ _ H).
  - unfold exec. by rewrite Delete_absent.
Qed.

Lemma compact_expired keys w : expired (heap (exec (compact keys) w)) = expired (heap w).
Proof.
  unfold compact. unfold_M.
  destruct (snapshot keys (storage (heap w))) as [s t]. simpl.
  apply evict_expired.
Qed.


Lemma step_keeps_mark e w w' k :
  step e w = Some w' →
  discards_mark e k = false →
  k ∈ expired (heap w) → k ∈ expired (heap w').
Proof.
  intros Hs Hd Hk. destruct e; simpl in Hs, Hd; simplify_eq.
  - by apply Get_keeps_marks.
  - apply bool_decide_eq_false in Hd.
    destruct (GetOrNew_exec now now' put_now key cb w) as [->|[d ->]].
    + by apply Get_keeps_marks.
    + apply Put_keeps_other_marks; [congruence|]. by apply Get_keeps_marks.
  - apply bool_decide_eq_false in Hd.
    destruct (GetOrNewWithTTL_exec now now' put_now put_now' key t cb w) as [->|[d ->]].
    + by apply Get_keeps_marks.
    + apply PutWithTTL_keeps_other_marks; [congruence|]. by apply Get_keeps_marks.
  - by rewrite Has_exec.
  - by rewrite Delete_expired.
  - apply bool_decide_eq_false in Hd. apply Put_keeps_other_marks; [congruence|done].
  - apply bool_decide_eq_false in Hd.
    apply PutWithTTL_keeps_other_marks; [congruence|done].
  - apply scanExpired_expired. by left.
  - destruct (compactions w) as [|n]; [done|].
    case_decide; [|done]. simplify_eq. by rewrite compact_expired.
Qed.

(** C10: [Delete(key)] does nothing when the key is absent; otherwise it
    removes the entry of [key] from the storage map and subtracts the length
    of its data from the size counter (in [int64] arithmetic, which is the
    plain difference when that is in range).  It leaves the [expired] set
    and every other entry as they were.  A mark in [expired] is taken out
    only by a pass of [clear], which empties the set, or by a put under the
    same key, which removes it whenever the put stores. *)
Theorem Delete_frame key w :
  let w' := exec (Delete key) w in
  (storage (heap w) !! key = None → w' = w)
  ∧ (∀ i, storage (heap w) !! key = Some i →
       storage (heap w') = delete key (storage (heap w))
       ∧ storage (heap w') !! key = None
       ∧ size (heap w') = Int64.add (size (heap w)) (- len (data i))
       ∧ (Int64.in_range (size (heap w) - len (data i)) →
          size (heap w') = size (heap w) - len (data i)))
  ∧ expired (heap w') = expired (heap w)
  ∧ (∀ k, k ≠ key → storage (heap w') !! k = storage (heap w) !! k)
  ∧ (∀ e k w1 w2,
       step e w1 = Some w2 →
       k ∈ expired (heap w1) → k ∉ expired (heap w2) →
       discards_mark e k = true)
  ∧ (∀ w1, expired (heap (exec clear w1)) = ∅)
  ∧ (∀ now d w1, len d < sizeLimit (heap w1) →
       key ∉ expired (heap (exec (Put now key d) w1))).
Proof.
  intros w'. subst w'. split_and!.
  - intros H. unfold exec. by rewrite Delete_absent.
  - intros i H. rewrite (Delete_present _ _ _ H). simpl. split_and!; try done.
    + apply lookup_delete_eq.
    + intros Hr. unfold Int64.add.
      replace (size (heap w) + - len (data i)) with (size (heap w) - len (data i)) by lia.
      by apply wrap_in_range.
  - apply Delete_expired.
  - intros k Hne. destruct (storage (heap w) !! key) as [i|] eqn:H.
    + rewrite (Delete_present _ _ _ H). simpl. by apply lookup_delete_ne.
    + unfold exec. by rewrite Delete_absent.
  - intros e k w1 w2 Hs Hin Hout.
    destruct (discards_mark e k) eqn:Hd; [done|].
    exfalso. apply Hout. by apply (step_keeps_mark e w1).
  - apply clear_expired.
  - intros now d w1 Hlen. rewrite Put_stored by done. simpl. set_solver.
Qed.

Lemma Delete_frame_witness :
  let w := exec (Put (Unix 0) "foo" b10) (New []) in
  storage (heap (exec (Delete "foo") w)) !! "foo" = None
  ∧ size (heap (exec (Delete "foo") w)) = 0
  ∧ exec (Delete "bar") w = w.
Proof.
  intros w.
  destruct (Delete_frame "foo" w) as (_ & Hpresent & _).
  destruct (Hpresent (Item b10 zero (Unix 0))) as (_ & Hgone & _ & Hsize).
  { vm_compute. reflexivity. }
  split_and!.
  - exact Hgone.
  - rewrite Hsize; [vm_compute; reflexivity|]. vm_compute. split; discriminate.
  - apply (Delete_frame "bar" w). vm_compute. reflexivity.
Defined.

(** ** Compute on miss *)

Lemma GetOrNew_miss_eq now now' pn key cb w r e w1 :
  Get now now' key w = ((r, Some e), w1) →
  GetOrNew now now' pn key cb w =
    match cb key with
    | (_, Some err) => (([], Some err), w1)
    | (d, None) => ((d, None), exec (Put pn key d) w1)
    end.
Proof.
  intros H. unfold GetOrNew, bind, exec. rewrite H. simpl.
  destruct (cb key) as [d [err|]]; simpl; [done|].
  by destruct (Put pn key d w1) as [[] ?].
Qed.

Lemma GetOrNewWithTTL_miss_eq now now' pn pn' key t cb w r e w1 :
  Get now now' key w = ((r, Some e), w1) →
  GetOrNewWithTTL now now' pn pn' key t cb w =
    match cb key with
    | (_, Some err) => (([], Some err), w1)
    | (d, None) => ((d, None), exec (PutWithTTL pn pn' key d t) w1)
    end.
Proof.
  intros H. unfold GetOrNewWithTTL, bind, exec. rewrite H. simpl.
  destruct (cb key) as [d [err|]]; simpl; [done|].
  by destruct (PutWithTTL pn pn' key d t w1) as [[] ?].
Qed.

(** On a key that is absent, or present but past its expiry time, [Get]
    misses; it changes nothing in the first case and only adds the key to
    [expired] in the second. *)
Lemma Get_miss now now' key w :
  storage (heap w) !! key = None
  ∨ (∃ i, storage (heap w) !! key = Some i ∧ past now i) →
  ∃ w1, Get now now' key w = (([], Some ErrNotFound), w1)
        ∧ storage (heap w1) = storage (heap w)
        ∧ size (heap w1) = size (heap w)
        ∧ sizeLimit (heap w1) = sizeLimit (heap w)
        ∧ compactions w1 = compactions w
        ∧ (storage (heap w) !! key = None → w1 = w)
        ∧ (is_Some (storage (heap w) !! key) →
           expired (heap w1) = {[key]} ∪ expired (heap w)).
Proof.
  intros [H|(i & H & Hz & Hlt)].
  - exists w. rewrite Get_absent by done. split_and!; try done.
    intros [? ?]. congruence.
  - eexists. rewrite (Get_expired _ _ _ _ _ H Hz Hlt).
    split_and!; try done. congruence.
Qed.

(** C8, as the code has it: on a key that is absent or present but past its
    expiry time, when [cb(key)] returns an error, [GetOrNew] and
    [GetOrNewWithTTL] return that error and store nothing: the world is the
    one the initial [Get] leaves, with the storage map and the size counter
    unchanged and the key added to [expired] when it was found expired.
    When [cb(key)] succeeds its data is returned and handed to [Put]
    ([PutWithTTL]), which stores it when [len(data) < sizeLimit] and drops
    it otherwise. *)
Theorem GetOrNew_miss now now' pn pn' key t cb w :
  storage (heap w) !! key = None
  ∨ (∃ i, storage (heap w) !! key = Some i ∧ past now i) →
  let w1 := exec (Get now now' key) w in
  (storage (heap w1) = storage (heap w)
   ∧ size (heap w1) = size (heap w)
   ∧ compactions w1 = compactions w
   ∧ (storage (heap w) !! key = None → w1 = w)
   ∧ (is_Some (storage (heap w) !! key) →
      expired (heap w1) = {[key]} ∪ expired (heap w)))
  ∧ (∀ d err, cb key = (d, Some err) →
       GetOrNew now now' pn key cb w = (([], Some err), w1)
       ∧ GetOrNewWithTTL now now' pn pn' key t cb w = (([], Some err), w1))
  ∧ (∀ d, cb key = (d, None) →
       GetOrNew now now' pn key cb w = ((d, None), exec (Put pn key d) w1)
       ∧ GetOrNewWithTTL now now' pn pn' key t cb w
         = ((d, None), exec (PutWithTTL pn pn' key d t) w1)
       ∧ (len d < sizeLimit (heap w) →
          storage (heap (exec (GetOrNew now now' pn key cb) w)) !! key
            = Some (Item d zero pn)
          ∧ storage (heap (exec (GetOrNewWithTTL now now' pn pn' key t cb) w)) !! key
            = Some (Item d (Add pn t) pn'))
       ∧ (sizeLimit (heap w) <= len d →
          exec (GetOrNew now now' pn key cb) w = w1
          ∧ exec (GetOrNewWithTTL now now' pn pn' key t cb) w = w1)).
Proof.
  intros Hmiss w1.
  destruct (Get_miss now now' key w Hmiss) as (w1' & HG & Hst & Hsz & Hlim & Hc & Habs & Hexp).
  assert (w1 = w1') as -> by (subst w1; unfold exec; by rewrite HG).
  split_and!; try done.
  - intros d err Hcb.
    rewrite (GetOrNew_miss_eq _ _ _ _ _ _ _ _ _ HG),
            (GetOrNewWithTTL_miss_eq _ _ _ _ _ _ _ _ _ _ _ HG), Hcb. done.
  - intros d Hcb.
    unfold exec at 3 4 5 6.
    rewrite (GetOrNew_miss_eq _ _ _ _ _ _ _ _ _ HG),
            (GetOrNewWithTTL_miss_eq _ _ _ _ _ _ _ _ _ _ _ HG), Hcb. simpl.
    split_and!; try done.
    + intros Hlen. rewrite <- Hlim in Hlen.
      rewrite Put_stored, PutWithTTL_stored by done. simpl.
      by rewrite !lookup_insert_eq.
    + intros Hlen. rewrite <- Hlim in Hlen. unfold exec.
      by rewrite Put_rejected, PutWithTTL_rejected.
Qed.

Lemma GetOrNew_miss_witness :
  let cb : GetCallback := (λ _, ([x30], None)) in
  GetOrNew (Unix 1) (Unix 1) (Unix 2) "foo" cb (New [])
  = (([x30], None), exec (Put (Unix 2) "foo" [x30]) (New []))
  ∧ storage (heap (exec (GetOrNew (Unix 1) (Unix 1) (Unix 2) "foo" cb) (New []))) !! "foo"
    = Some (Item [x30] zero (Unix 2)).
Proof.
  intros cb.
  destruct (GetOrNew_miss (Unix 1) (Unix 1) (Unix 2) (Unix 2) "foo" Second cb (New []))
    as (_ & _ & Hok).
  { left. vm_compute. reflexivity. }
  destruct (Hok [x30]) as (HG & _ & Hst & _); [reflexivity|].
  split; [exact HG|]. apply Hst. vm_compute. reflexivity.
Defined.

(** C8 as stated fails twice.  With [sizeLimit = 1] a callback that returns
    two bytes succeeds, and [GetOrNew] returns its data without storing it.
    On a key that is stored and already past its expiry time a failing
    callback leaves the world changed: the key has been added to [expired]. *)
Lemma GetOrNew_counterexample :
  let big : GetCallback := (λ _, ([x10; x20], None)) in
  let failing : GetCallback := (λ _, ([], Some (ErrCallback "error1"))) in
  let w0 := New [WithSizeLimit 1] in
  let w1 := exec (PutWithTTL (Unix 0) (Unix 0) "foo" b10 Second) (New []) in
  let late := Unix (2 * Second) in
  (storage (heap w0) !! "foo" = None
   ∧ eval (GetOrNew late late late "foo" big) w0 = ([x10; x20], None)
   ∧ storage (heap (exec (GetOrNew late late late "foo" big) w0)) !! "foo" = None)
  ∧ (eval (Has late "foo") w1 = false
     ∧ eval (GetOrNew late late late "foo" failing) w1
       = ([], Some (ErrCallback "error1"))
     ∧ ("foo" ∉ expired (heap w1))
     ∧ "foo" ∈ expired (heap (exec (GetOrNew late late late "foo" failing) w1))
     ∧ exec (GetOrNew late late late "foo" failing) w1 ≠ w1).
Proof.
  intros big failing w0 w1 late.
  assert (Hout : "foo" ∉ expired (heap w1)) by (vm_compute; discriminate).
  assert (Hin : "foo" ∈ expired (heap (exec (GetOrNew late late late "foo" failing) w1)))
    by (vm_compute; reflexivity).
  split.
  - vm_compute. done.
  - split_and!; done.
Qed.

(** ** The state [New] makes *)

Lemma New_fields options :
  storage (heap (New options)) = ∅
  ∧ expired (heap (New options)) = ∅
  ∧ size (heap (New options)) = 0
  ∧ compactions (New options) = 0%nat.
Proof.
  unfold New. simpl.
  generalize defaultClearExpireTimeout, defaultCheckExpireTimeout, defaultSizeLimit.
  intros a b l. revert a b l.
  induction options as [|o options IH]; intros a b l; [done|].
  destruct o; simpl; apply IH.
Qed.

(** ** Size accounting *)

Lemma wrap_add_l a b : Int64.wrap (Int64.wrap a + b) = Int64.wrap (a + b).
Proof.
  unfold Int64.wrap, Int64.modulus.
  replace ((a + 2 ^ 63) `mod` 2 ^ 64 - 2 ^ 63 + b + 2 ^ 63)
    with ((a + 2 ^ 63) `mod` 2 ^ 64 + b) by lia.
  rewrite Zplus_mod_idemp_l. f_equal. f_equal. lia.
Qed.

Lemma total_size_empty : total_size ∅ = 0.
Proof. apply map_fold_empty. Qed.

Lemma total_size_insert_fresh k i (st : gmap string item) :
  st !! k = None → total_size (<[k := i]> st) = total_size st + len (data i).
Proof.
  intros H. unfold total_size. rewrite map_fold_insert_L; [done| |done].
  intros. lia.
Qed.

Lemma total_size_delete k i (st : gmap string item) :
  st !! k = Some i → total_size (delete k st) = total_size st - len (data i).
Proof.
  intros H. rewrite <- (insert_delete_id st k i H) at 2.
  rewrite total_size_insert_fresh by apply lookup_delete_eq. lia.
Qed.

Lemma total_size_insert k i (st : gmap string item) :
  total_size (<[k := i]> st) =
  total_size st - from_option (λ j, len (data j)) 0 (st !! k) + len (data i).
Proof.
  rewrite <- insert_delete_eq.
  rewrite total_size_insert_fresh by apply lookup_delete_eq.
  destruct (st !! k) as [j|] eqn:H; simpl.
  - rewrite (total_size_delete k j) by done. lia.
  - rewrite delete_id by done. lia.
Qed.

Lemma remove_accounted k i c :
  storage c !! k = Some i → accounted c →
  accounted (set_size (λ n, Int64.add n (- len (data i)))
               (set_storage (λ m, delete k m) c)).
Proof.
  unfold accounted. simpl. intros H ->.
  rewrite (total_size_delete k i) by done.
  unfold Int64.add. rewrite wrap_add_l. f_equal; lia.
Qed.

Lemma evict_accounted s t c : accounted c → accounted (evict s t c).
Proof.
  revert c. induction t as [|skey t IH]; intros c Hc; simpl; [done|].
  destruct (storage c !! default ""%string (s !! skey)) as [i|] eqn:H; [|by apply IH].
  pose proof (remove_accounted _ _ _ H Hc) as Hc'.
  destruct (_ <? _); [done|]. by apply IH.
Qed.

Lemma clear_key_accounted k c : accounted c → accounted (clear_key k c).
Proof.
  intros Hc. unfold clear_key. simpl.
  destruct (storage c !! k) as [i|] eqn:H; [|done].
  by apply (remove_accounted k i (set_expired (λ e, e ∖ {[k]}) c)).
Qed.

Lemma Get_accounted now now' key w :
  accounted (heap w) → accounted (heap (exec (Get now now' key) w)).
Proof.
  intros Hc. unfold exec.
  destruct (Get_cases now now' key w) as [[_ ->]|[(i & Hi & _ & ->)|(i & Hi & _ & ->)]];
    simpl; try done.
  unfold accounted in *. simpl. rewrite total_size_insert, Hi. simpl.
  rewrite Hc. f_equal; lia.
Qed.

(** A put that stores adds [len(d)] to the counter whatever was stored under
    the key, while the true sum loses the length of the entry replaced. *)
Lemma Put_accounting now key d w :
  len d < sizeLimit (heap w) → accounted (heap w) →
  size (heap (exec (Put now key d) w)) =
  Int64.wrap (total_size (storage (heap (exec (Put now key d) w)))
              + from_option (λ j, len (data j)) 0 (storage (heap w) !! key)).
Proof.
  intros Hlen Hc. rewrite Put_stored by done. simpl.
  rewrite total_size_insert. simpl. rewrite Hc. unfold Int64.add.
  rewrite wrap_add_l. f_equal; lia.
Qed.

Lemma PutWithTTL_accounting now now' key d t w :
  len d < sizeLimit (heap w) → accounted (heap w) →
  size (heap (exec (PutWithTTL now now' key d t) w)) =
  Int64.wrap (total_size (storage (heap (exec (PutWithTTL now now' key d t) w)))
              + from_option (λ j, len (data j)) 0 (storage (heap w) !! key)).
Proof.
  intros Hlen Hc. rewrite PutWithTTL_stored by done. simpl.
  rewrite total_size_insert. simpl. rewrite Hc. unfold Int64.add.
  rewrite wrap_add_l. f_equal; lia.
Qed.

Lemma Put_fresh_accounted now key d w :
  storage (heap w) !! key = None →
  accounted (heap w) → accounted (heap (exec (Put now key d) w)).
Proof.
  intros Hk Hc. destruct (Put_cases now key d w) as [[_ ->]|[Hlen _]]; [done|].
  unfold accounted. rewrite Put_accounting, Hk by done. simpl. f_equal; lia.
Qed.

Lemma PutWithTTL_fresh_accounted now now' key d t w :
  storage (heap w) !! key = None →
  accounted (heap w) → accounted (heap (exec (PutWithTTL now now' key d t) w)).
Proof.
  intros Hk Hc.
  destruct (PutWithTTL_cases now now' key d t w) as [[_ ->]|[Hlen _]]; [done|].
  unfold accounted. rewrite PutWithTTL_accounting, Hk by done. simpl. f_equal; lia.
Qed.

Lemma Delete_accounted key w :
  accounted (heap w) → accounted (heap (exec (Delete key) w)).
Proof.
  intros Hc. destruct (storage (heap w) !! key) as [i|] eqn:H.
  - rewrite (Delete_present _ _ _ H). by apply (remove_accounted key i (heap w)).
  - unfold exec. by rewrite Delete_absent.
Qed.

Lemma clear_accounted w : accounted (heap w) → accounted (heap (exec clear w)).
Proof.
  intros Hc. unfold clear. unfold_M. unfold set_fold. simpl.
  induction (elements (expired (heap w))) as [|k l IH]; simpl; [done|].
  by apply clear_key_accounted.
Qed.

Lemma compact_accounted keys w :
  accounted (heap w) → accounted (heap (exec (compact keys) w)).
Proof.
  intros Hc. unfold compact. unfold_M.
  destruct (snapshot keys (storage (heap w))) as [s t]. simpl.
  by apply evict_accounted.
Qed.

Lemma Get_absent_storage now now' key w :
  storage (heap w) !! key = None →
  exec (Get now now' key) w = w.
Proof. intros H. unfold exec. by rewrite Get_absent. Qed.

Lemma GetOrNew_exec_cases now now' pn key cb w :
  exec (GetOrNew now now' pn key cb) w = exec (Get now now' key) w
  ∨ (snd (eval (Get now now' key) w) ≠ None ∧ snd (cb key) = None
     ∧ exec (GetOrNew now now' pn key cb) w
       = exec (Put pn key (fst (cb key))) (exec (Get now now' key) w)).
Proof.
  unfold GetOrNew, exec, eval, bind.
  destruct (Get now now' key w) as [[r [e|]] w1]; simpl; [|by left].
  destruct (cb key) as [d [err|]]; simpl; [by left|].
  right. split_and!; [done..|]. by destruct (Put pn key d w1).
Qed.

Lemma GetOrNewWithTTL_exec_cases now now' pn pn' key t cb w :
  exec (GetOrNewWithTTL now now' pn pn' key t cb) w = exec (Get now now' key) w
  ∨ (snd (eval (Get now now' key) w) ≠ None ∧ snd (cb key) = None
     ∧ exec (GetOrNewWithTTL now now' pn pn' key t cb) w
       = exec (PutWithTTL pn pn' key (fst (cb key)) t) (exec (Get now now' key) w)).
Proof.
  unfold GetOrNewWithTTL, exec, eval, bind.
  destruct (Get now now' key w) as [[r [e|]] w1]; simpl; [|by left].
  destruct (cb key) as [d [err|]]; simpl; [by left|].
  right. split_and!; [done..|]. by destruct (PutWithTTL pn pn' key d t w1).
Qed.

(** A [Get] that fails leaves the key absent, or found the entry past its
    expiry time and left the storage map and the size limit as they
    were. *)
Lemma Get_fails now now' key w :
  snd (eval (Get now now' key) w) ≠ None →
  storage (heap (exec (Get now now' key) w)) !! key = None
  ∨ ∃ i, storage (heap w) !! key = Some i ∧ past now i
         ∧ sizeLimit (heap (exec (Get now now' key) w)) = sizeLimit (heap w).
Proof.
  unfold exec, eval.
  destruct (Get_cases now now' key w) as [[Hk ->]|[(i & Hi & Hp & ->)|(i & Hi & _ & ->)]];
    simpl; intros Hr.
  - by left.
  - right. by exists i.
  - done.
Qed.

(** Every transition keeps the size counter equal to the true sum (up to
    [int64] wrap-around) unless it stores under a key that is stored. *)
Lemma step_accounted e w w' :
  step e w = Some w' →
  ¬ overwrites e w →
  accounted (heap w) → accounted (heap w').
Proof.
  intros Hs Ho Hc. destruct e; simpl in Hs, Ho; simplify_eq.
  - by apply Get_accounted.
  - destruct (GetOrNew_exec_cases now now' put_now key cb w) as [->|(Hr & Hcb & ->)];
      [by apply Get_accounted|].
    pose proof (Get_accounted now now' key w Hc) as Hg.
    destruct (Put_cases put_now key (fst (cb key)) (exec (Get now now' key) w))
      as [[_ ->]|[Hlen _]]; [done|].
    destruct (Get_fails now now' key w Hr) as [Hk|(i & Hi & Hp & Hl)].
    + by apply Put_fresh_accounted.
    + exfalso. apply Ho. exists i. rewrite <- Hl. done.
  - destruct (GetOrNewWithTTL_exec_cases now now' put_now put_now' key t cb w)
      as [->|(Hr & Hcb & ->)]; [by apply Get_accounted|].
    pose proof (Get_accounted now now' key w Hc) as Hg.
    destruct (PutWithTTL_cases put_now put_now' key (fst (cb key)) t
                (exec (Get now now' key) w)) as [[_ ->]|[Hlen _]]; [done|].
    destruct (Get_fails now now' key w Hr) as [Hk|(i & Hi & Hp & Hl)].
    + by apply PutWithTTL_fresh_accounted.
    + exfalso. apply Ho. exists i. rewrite <- Hl. done.
  - by rewrite Has_exec.
  - by apply Delete_accounted.
  - destruct (Put_cases now key d w) as [[_ ->]|[Hlen _]]; [done|].
    apply Put_fresh_accounted; [|done].
    destruct (storage (heap w) !! key); [exfalso; eauto|done].
  - destruct (PutWithTTL_cases now now' key d t w) as [[_ ->]|[Hlen _]]; [done|].
    apply PutWithTTL_fresh_accounted; [|done].
    destruct (storage (heap w) !! key); [exfalso; eauto|done].
  - done.
  - by apply clear_accounted.
  - destruct (compactions w) as [|n]; [done|].
    case_decide; [|done]. simplify_eq. by apply compact_accounted.
Qed.

(** C1 fails on the code: [Put] (and [PutWithTTL]) add [len(data)] to the
    size counter and never subtract the length of the entry they replace.
    Two puts of one byte under the same key reach a state whose counter is 2
    while the storage map holds one byte. *)
Theorem Put_overwrite_counts_twice :
  ∃ w, run [EvPut (Unix 0) "foo" b10; EvPut (Unix 1) "foo" b10] (New []) = Some w
       ∧ reachable w
       ∧ size (heap w) = 2
       ∧ total_size (storage (heap w)) = 1
       ∧ size (heap w) ≠ total_size (storage (heap w)).
Proof.
  eexists. split; [vm_compute; reflexivity|].
  split_and!.
  - exists [], [EvPut (Unix 0) "foo" b10; EvPut (Unix 1) "foo" b10].
    vm_compute. reflexivity.
  - vm_compute. reflexivity.
  - vm_compute. reflexivity.
  - vm_compute. discriminate.
Qed.

(** ** Compaction *)

Lemma remove_key_sizeLimit c k : sizeLimit (remove_key c k) = sizeLimit c.
Proof. unfold remove_key. by destruct (storage c !! k). Qed.

Lemma remove_key_lookup c k j :
  storage (remove_key c k) !! j = if decide (j = k) then None else storage c !! j.
Proof.
  unfold remove_key. destruct (storage c !! k) as [i|] eqn:H; simpl.
  - rewrite lookup_delete. repeat case_decide; congruence.
  - case_decide; congruence.
Qed.

Lemma remove_keys_lookup keys c j :
  storage (remove_keys keys c) !! j =
  if decide (j ∈ keys) then None else storage c !! j.
Proof.
  revert c. induction keys as [|k keys IH]; intros c; simpl.
  - destruct (decide (j ∈ [])) as [H|]; [by inversion H|done].
  - unfold remove_keys in *. rewrite IH, remove_key_lookup.
    repeat case_decide; set_solver.
Qed.

(** The second loop of [compact] removes a prefix of the keys it visits:
    the shortest non-empty one after which the size counter is below
    [sizeLimit], or all of them. *)
Lemma evict_prefix s ts c :
  NoDup (key_at s <$> ts) →
  (∀ k, k ∈ key_at s <$> ts → is_Some (storage c !! k)) →
  ∃ n : nat,
    evict s ts c = remove_keys (take n (key_at s <$> ts)) c
    ∧ (n ≤ length ts)%nat
    ∧ (ts ≠ [] → (0 < n)%nat)
    ∧ (∀ m : nat, (0 < m < n)%nat →
         sizeLimit c <= size (remove_keys (take m (key_at s <$> ts)) c))
    ∧ ((n < length ts)%nat → size (evict s ts c) < sizeLimit c).
Proof.
  revert c. induction ts as [|skey ts IH]; intros c Hnd Hin.
  - exists 0%nat. simpl. split_and!; try done; lia.
  - rewrite fmap_cons in Hnd, Hin. apply NoDup_cons in Hnd as [Hk Hnd].
    destruct (Hin (key_at s skey)) as [i Hi]; [set_solver|].
    set (c1 := remove_key c (key_at s skey)).
    assert (Hev : evict s (skey :: ts) c =
                  if size c1 <? sizeLimit c1 then c1 else evict s ts c1).
    { subst c1. unfold remove_key. simpl. fold (key_at s skey). by rewrite Hi. }
    assert (Hlim : sizeLimit c1 = sizeLimit c) by apply remove_key_sizeLimit.
    rewrite Hev. clear Hev. rewrite fmap_cons.
    destruct (Z.ltb_spec (size c1) (sizeLimit c1)) as [Hlt|Hge].
    + exists 1%nat. simpl. split_and!; try done; try lia.
    + destruct (IH c1 Hnd) as (n & He & Hn & _ & Hmin & Hstop).
      { intros k Hkin. subst c1. rewrite remove_key_lookup.
        case_decide; [by subst|]. apply Hin. set_solver. }
      exists (S n). simpl. fold c1.
      split_and!; [done|lia|lia| |].
      * intros m Hm. destruct m as [|m]; [lia|]. simpl. fold c1.
        destruct m as [|m]; [simpl; lia|].
        rewrite <- Hlim. apply Hmin. lia.
      * intros Hlen. rewrite <- Hlim. apply Hstop. lia.
Qed.

Lemma snapshot_step_stored st acc k :
  is_Some (st !! k) →
  snapshot_step st acc k = (<[stamp st k := k]> (fst acc), snd acc ++ [stamp st k]).
Proof. intros [i Hi]. unfold snapshot_step, stamp. by rewrite Hi. Qed.

(** The first loop of [compact] when the timestamps are distinct: [t] lists
    the timestamps of the keys and [s] maps each back to its key. *)
Lemma snapshot_distinct keys st :
  distinct_stamps st →
  (∀ k, k ∈ keys → is_Some (st !! k)) →
  snd (snapshot keys st) = stamp st <$> keys
  ∧ ∀ k, k ∈ keys → key_at (fst (snapshot keys st)) (stamp st k) = k.
Proof.
  intros Hd. unfold snapshot.
  induction keys as [|k keys IH] using rev_ind; intros Hin; [by split; [|set_solver]|].
  rewrite foldl_snoc, fmap_app.
  destruct IH as [IHt IHs]; [set_solver|].
  assert (Hk : is_Some (st !! k)) by (apply Hin; set_solver).
  rewrite snapshot_step_stored by done. simpl. rewrite IHt. split; [done|].
  intros k' [Hk'|Hk']%elem_of_app; unfold key_at.
  - destruct (decide (stamp st k = stamp st k')) as [Heq|Hne].
    + rewrite <- Heq, lookup_insert_eq. simpl. apply Hd; [done| |done].
      apply Hin. set_solver.
    + rewrite lookup_insert_ne by done. by apply IHs.
  - apply list_elem_of_singleton in Hk' as ->. by rewrite lookup_insert_eq.
Qed.

Lemma StronglySorted_fmap_inv {A B} (f : A → B) (R : relation B) (l : list A) :
  StronglySorted R (f <$> l) → StronglySorted (λ a b, R (f a) (f b)) l.
Proof.
  induction l as [|a l IH]; csimpl; intros H; [constructor|].
  apply StronglySorted_cons in H as [H1 H2].
  constructor; [by apply IH|]. by rewrite Forall_fmap in H1.
Qed.

Lemma storage_keys_elem_of c k : k ∈ storage_keys c ↔ is_Some (storage c !! k).
Proof.
  unfold storage_keys. rewrite list_elem_of_fmap. split.
  - intros ([k' i] & -> & Hi). apply elem_of_map_to_list in Hi. by exists i.
  - intros [i Hi]. exists (k, i). split; [done|]. by apply elem_of_map_to_list.
Qed.

(** With distinct timestamps [compact] visits the stored keys oldest
    first and removes a prefix of them: the shortest non-empty one after
    which the size counter is below [sizeLimit], or all of them. *)
Lemma compact_distinct keys w :
  keys ≡ₚ storage_keys (heap w) →
  distinct_stamps (storage (heap w)) →
  ∃ (order : list string) (n : nat),
    order ≡ₚ keys
    ∧ StronglySorted
        (λ k1 k2, stamp (storage (heap w)) k1 <= stamp (storage (heap w)) k2) order
    ∧ heap (exec (compact keys) w) = remove_keys (take n order) (heap w)
    ∧ (n ≤ length order)%nat
    ∧ (keys ≠ [] → (0 < n)%nat)
    ∧ (∀ m : nat, (0 < m < n)%nat →
         sizeLimit (heap w) <= size (remove_keys (take m order) (heap w)))
    ∧ ((n < length order)%nat →
       size (heap (exec (compact keys) w)) < sizeLimit (heap w)).
Proof.
  intros Hperm Hd. set (st := storage (heap w)).
  assert (Hkeys : ∀ k, k ∈ keys → is_Some (st !! k)).
  { intros k Hk. apply storage_keys_elem_of. by rewrite <- Hperm. }
  assert (Hnd : NoDup keys).
  { rewrite Hperm. apply NoDup_fst_map_to_list. }
  destruct (snapshot_distinct keys st Hd Hkeys) as [Ht Hs].
  unfold compact. unfold_M. fold st.
  destruct (snapshot keys st) as [s t] eqn:Hsnap. simpl in *. subst t.
  set (ts := merge_sort Z.le (stamp st <$> keys)).
  assert (Hts : ts ≡ₚ stamp st <$> keys) by apply merge_sort_Permutation.
  assert (Hback : ∀ n, n ∈ ts → stamp st (key_at s n) = n).
  { intros n Hn. rewrite Hts in Hn. apply list_elem_of_fmap in Hn as (k & -> & Hk).
    by rewrite Hs. }
  assert (Horder : key_at s <$> ts ≡ₚ keys).
  { rewrite Hts, <- list_fmap_compose.
    rewrite (list_fmap_ext _ id keys); [by rewrite list_fmap_id|].
    intros i k Hk. simpl. apply Hs. by eapply list_elem_of_lookup_2. }
  destruct (evict_prefix s ts (heap w)) as (n & He & Hn & Hpos & Hmin & Hstop).
  { by rewrite Horder. }
  { intros k Hk. apply Hkeys. by rewrite <- Horder. }
  exists (key_at s <$> ts), n. rewrite length_fmap.
  split_and!; try done.
  - apply (StronglySorted_fmap_inv (stamp st) Z.le).
    rewrite <- list_fmap_compose, (list_fmap_ext _ id ts), list_fmap_id.
    + apply StronglySorted_merge_sort; apply _.
    + intros i x Hx. simpl. apply Hback. by eapply list_elem_of_lookup_2.
  - intros Hne. apply Hpos. intros Hnil.
    apply Hne. apply Permutation_nil_r. rewrite <- Horder, Hnil. done.
Qed.

Lemma stamp_stored st k i : st !! k = Some i → stamp st k = UnixNano (lu i).
Proof. intros H. unfold stamp. by rewrite H. Qed.

Lemma UnixNano_stampable t : stampable t → UnixNano t = t - unixToInternal * Second.
Proof. apply wrap_in_range. Qed.

(** With distinct timestamps, when [compact] evicts an entry it has evicted
    every entry last used before it. *)
Lemma compact_oldest_first keys w k1 k2 i1 i2 :
  keys ≡ₚ storage_keys (heap w) →
  distinct_stamps (storage (heap w)) →
  storage (heap w) !! k1 = Some i1 →
  storage (heap w) !! k2 = Some i2 →
  stampable (lu i1) → stampable (lu i2) →
  lu i1 < lu i2 →
  evicted (heap w) (heap (exec (compact keys) w)) k2 →
  evicted (heap w) (heap (exec (compact keys) w)) k1.
Proof.
  intros Hperm Hd H1 H2 Hs1 Hs2 Hlt. unfold evicted.
  destruct (compact_distinct keys w Hperm Hd) as (order & n & Ho & Hsorted & He & _).
  rewrite He, !remove_keys_lookup. clear He. intros [_ Hgone].
  split; [by rewrite H1|].
  destruct (decide (k2 ∈ take n order)) as [Hk2|_]; [|congruence].
  destruct (decide (k1 ∈ take n order)) as [|Hk1]; [done|exfalso].
  assert (k1 ∈ order) as Hin.
  { rewrite Ho, Hperm. apply storage_keys_elem_of. by rewrite H1. }
  rewrite <- (take_drop n order) in Hin, Hsorted.
  apply elem_of_app in Hin as [|Hin]; [done|].
  pose proof (StronglySorted_app_1_elem_of _ _ _ _ _ Hsorted Hk2 Hin) as Hle.
  simpl in Hle.
  rewrite (stamp_stored _ _ _ H1), (stamp_stored _ _ _ H2) in Hle.
  rewrite !UnixNano_stampable in Hle by done. lia.
Qed.

(** C2 fails on the code: [compact] keeps one key per timestamp in its map
    [s], so of several entries with the same [lu] only one can be evicted.
    With [sizeLimit = 6] and three entries of five bytes, ["a"] and ["b"]
    last used at the same instant and ["c"] one nanosecond later, every
    iteration order of the storage map ends with the newer ["c"] evicted
    and one of the older ["a"], ["b"] still stored. *)
Theorem compact_skips_equal_timestamps :
  ∃ w, run same_instant (New [WithSizeLimit 6]) = Some w
       ∧ compactions w = 2%nat
       ∧ size (heap w) = 15
       ∧ lastUsed (heap w) "a" = Some (Unix 1)
       ∧ lastUsed (heap w) "b" = Some (Unix 1)
       ∧ lastUsed (heap w) "c" = Some (Unix 2)
       ∧ Forall (λ keys,
           let c' := heap (exec (compact keys) w) in
           evicted (heap w) c' "c"
           ∧ (is_Some (storage c' !! "a") ∨ is_Some (storage c' !! "b"))
           ∧ size c' = 5)
           (permutations (storage_keys (heap w))).
Proof.
  eexists. split; [vm_compute; reflexivity|].
  do 5 (split; [vm_compute; reflexivity|]).
  match goal with |- Forall _ ?l =>
    let l' := eval vm_compute in l in
    assert (l = l') as -> by (vm_compute; reflexivity) end.
  repeat apply Forall_cons_2; [..|apply Forall_nil_2];
    (vm_compute; split_and!; eauto).
Qed.

(** The run of [TestPut_compact]: the put of four bytes starts no
    compaction; the put of seven bytes starts one, which evicts ["3"] and
    ["2"] and stops at size 16. *)
Example TestPut_compact :
  let now := Unix (100 * Second) in
  let w1 := exec (Put now "5" [x31; x32; x33; x34]) (test_compact_world now) in
  size (heap w1) = 19 ∧ compactions w1 = 0%nat
  ∧ ∃ w, run [EvPut (now + 1) "6" [x31; x32; x33; x34; x35; x36; x37];
              EvCompact ["1"; "2"; "3"; "5"; "6"]]%string w1 = Some w
         ∧ size (heap w) = 16
         ∧ dom (storage (heap w)) = {["1"; "5"; "6"]}%string.
Proof.
  intros now w1. split; [vm_compute; reflexivity|]. split; [vm_compute; reflexivity|].
  eexists. split; [vm_compute; reflexivity|].
  split; vm_compute; reflexivity.
Qed.

(** When all three entries share their timestamp the pass evicts a single
    entry and ends with the size counter at 10, not below [sizeLimit = 6],
    although two entries are left to evict. *)
Example compact_ends_over_limit :
  ∃ w, run one_instant (New [WithSizeLimit 6]) = Some w
       ∧ Forall (λ keys,
           let c' := heap (exec (compact keys) w) in
           size c' = 10 ∧ sizeLimit c' = 6 ∧ length (storage_keys c') = 2%nat)
           (permutations (storage_keys (heap w))).
Proof.
  eexists. split; [vm_compute; reflexivity|].
  match goal with |- Forall _ ?l =>
    let l' := eval vm_compute in l in
    assert (l = l') as -> by (vm_compute; reflexivity) end.
  repeat apply Forall_cons_2; [..|apply Forall_nil_2];
    (vm_compute; split_and!; reflexivity).
Qed.


(** * Further properties of the code *)

(** ** The constructor and its options *)

(** X1: a cache made by [New], whatever the options, is empty: no entry, no
    mark, size 0 and no compaction started; [Get] of any key returns
    [ErrNotFound] and [Has] returns [false], and neither changes it. *)
Theorem New_is_empty options now now' key :
  storage (heap (New options)) = ∅
  ∧ expired (heap (New options)) = ∅
  ∧ size (heap (New options)) = 0
  ∧ compactions (New options) = 0%nat
  ∧ Get now now' key (New options) = (([], Some ErrNotFound), New options)
  ∧ Has now key (New options) = (false, New options).
Proof.
  destruct (New_fields options) as (Hst & He & Hsz & Hc).
  split_and!; try done.
  - apply Get_absent. by rewrite Hst.
  - unfold Has. unfold_M. by rewrite Hst.
Qed.

Lemma New_snoc options o :
  heap (New (options ++ [o])) = apply_option (heap (New options)) o.
Proof. unfold New. simpl. by rewrite foldl_snoc. Qed.

(** X2: without options [New] sets both timeouts to one hour and the size
    limit to 1048576.  An option given last decides its own field and
    leaves the other two as the options before it set them. *)
Theorem New_options options l t :
  (clearExpireTimout (heap (New [])) = Hour
   ∧ checkExpireTimout (heap (New [])) = Hour
   ∧ sizeLimit (heap (New [])) = 1048576)
  ∧ (sizeLimit (heap (New (options ++ [WithSizeLimit l]))) = l
     ∧ clearExpireTimout (heap (New (options ++ [WithSizeLimit l])))
       = clearExpireTimout (heap (New options))
     ∧ checkExpireTimout (heap (New (options ++ [WithSizeLimit l])))
       = checkExpireTimout (heap (New options)))
  ∧ (clearExpireTimout (heap (New (options ++ [WithClearExpireTimeout t]))) = t
     ∧ checkExpireTimout (heap (New (options ++ [WithClearExpireTimeout t])))
       = checkExpireTimout (heap (New options))
     ∧ sizeLimit (heap (New (options ++ [WithClearExpireTimeout t])))
       = sizeLimit (heap (New options)))
  ∧ (checkExpireTimout (heap (New (options ++ [WithCheckExpireTimeout t]))) = t
     ∧ clearExpireTimout (heap (New (options ++ [WithCheckExpireTimeout t])))
       = clearExpireTimout (heap (New options))
     ∧ sizeLimit (heap (New (options ++ [WithCheckExpireTimeout t])))
       = sizeLimit (heap (New options))).
Proof. rewrite !New_snoc. done. Qed.

(** ** Reads *)

Lemma Has_stored now key w i :
  storage (heap w) !! key = Some i →
  eval (Has now key) w = IsZero (ttl i) || After (ttl i) now.
Proof. intros H. unfold Has. unfold_M. by rewrite H. Qed.

Lemma Has_absent now key w :
  storage (heap w) !! key = None → eval (Has now key) w = false.
Proof. intros H. unfold Has. unfold_M. by rewrite H. Qed.

Lemma live_not_past now i : live now i ↔ ¬ past now i.
Proof. unfold live, past, zero. lia. Qed.

(** X3: [Has] answers [true] exactly for a stored entry with no expiry time
    or an expiry time after the clock reading; [Get] succeeds exactly for a
    stored entry with no expiry time or an expiry time not before the
    reading.  So whenever [Has] answers [true], [Get] at the same reading
    returns the stored data; an entry whose expiry time is the reading
    itself is served by [Get] and denied by [Has]. *)
Theorem Has_and_Get now now' key w :
  (eval (Has now key) w = true ↔
     ∃ i, storage (heap w) !! key = Some i ∧ (ttl i = zero ∨ now < ttl i))
  ∧ (snd (eval (Get now now' key) w) = None ↔
     ∃ i, storage (heap w) !! key = Some i ∧ (ttl i = zero ∨ now <= ttl i))
  ∧ (eval (Has now key) w = true →
     ∃ i, storage (heap w) !! key = Some i
          ∧ eval (Get now now' key) w = (data i, None))
  ∧ (∀ i, storage (heap w) !! key = Some i → ttl i = now → now ≠ zero →
     eval (Has now key) w = false
     ∧ eval (Get now now' key) w = (data i, None)).
Proof.
  assert (HH : eval (Has now key) w = true ↔
     ∃ i, storage (heap w) !! key = Some i ∧ (ttl i = zero ∨ now < ttl i)).
  { destruct (storage (heap w) !! key) as [i|] eqn:Hi.
    - rewrite (Has_stored _ _ _ _ Hi). unfold IsZero, After, zero.
      rewrite orb_true_iff, Z.eqb_eq, Z.ltb_lt. split; [by exists i|].
      intros (j & Hj & ?). by simplify_eq.
    - rewrite Has_absent by done. split; [done|]. intros (j & Hj & _). done. }
  split_and!.
  - exact HH.
  - unfold eval.
    destruct (Get_cases now now' key w)
      as [[Hk ->]|[(i & Hi & Hp & ->)|(i & Hi & Hp & ->)]]; simpl.
    + split; [done|]. intros (j & Hj & _). congruence.
    + split; [done|]. intros (j & Hj & Hl). simplify_eq.
      exfalso. by apply (live_not_past now i).
    + split; [|done]. intros _. exists i. split; [done|].
      by apply live_not_past.
  - intros (i & Hi & Hl)%HH. exists i. split; [done|].
    unfold eval. rewrite (Get_live _ _ _ _ i); [done..|]. lia.
  - intros i Hi Ht Hz. split.
    + rewrite (Has_stored _ _ _ _ Hi). unfold IsZero, After, zero in *.
      rewrite Ht. apply orb_false_iff. rewrite Z.eqb_neq, Z.ltb_ge. lia.
    + unfold eval. rewrite (Get_live _ _ _ _ i); [done..|]. lia.
Qed.

Lemma Has_and_Get_witness :
  let w := exec (PutWithTTL (Unix 0) (Unix 0) "foo" b10 Second) (New []) in
  eval (Has (Unix Second) "foo") w = false
  ∧ eval (Get (Unix Second) (Unix Second) "foo") w = (b10, None).
Proof.
  intros w.
  destruct (Has_and_Get (Unix Second) (Unix Second) "foo" w) as (_ & _ & _ & Hedge).
  apply (Hedge (Item b10 (Add (Unix 0) Second) (Unix 0))).
  - vm_compute. reflexivity.
  - vm_compute. reflexivity.
  - vm_compute. discriminate.
Defined.

(** X4: [Get] never changes what is stored: after the call every key has
    the data and the expiry time it had before, the size counter, the size
    limit and the count of started compactions are the same, and [expired]
    has at most gained the key asked for. *)
Theorem Get_keeps_data now now' key w k :
  let w' := exec (Get now now' key) w in
  data <$> storage (heap w') !! k = data <$> storage (heap w) !! k
  ∧ ttl <$> storage (heap w') !! k = ttl <$> storage (heap w) !! k
  ∧ size (heap w') = size (heap w)
  ∧ sizeLimit (heap w') = sizeLimit (heap w)
  ∧ compactions w' = compactions w
  ∧ expired (heap w) ⊆ expired (heap w')
  ∧ expired (heap w') ⊆ {[key]} ∪ expired (heap w).
Proof.
  intros w'. subst w'. unfold exec.
  destruct (Get_cases now now' key w)
    as [[Hk ->]|[(i & Hi & Hp & ->)|(i & Hi & Hp & ->)]]; simpl.
  - split_and!; set_solver.
  - split_and!; set_solver.
  - split_and!; try set_solver.
    + destruct (decide (key = k)) as [->|Hne].
      * by rewrite lookup_insert_eq, Hi.
      * by rewrite lookup_insert_ne.
    + destruct (decide (key = k)) as [->|Hne].
      * by rewrite lookup_insert_eq, Hi.
      * by rewrite lookup_insert_ne.
Qed.

(** ** Deleting *)

(** X5: [Delete] is idempotent, and after it the key is gone for readers:
    [Get] returns [ErrNotFound] and [Has] returns [false], both without
    changing anything. *)
Theorem Delete_idempotent now now' key w :
  let w' := exec (Delete key) w in
  exec (Delete key) w' = w'
  ∧ storage (heap w') !! key = None
  ∧ Get now now' key w' = (([], Some ErrNotFound), w')
  ∧ Has now key w' = (false, w').
Proof.
  intros w'.
  assert (Hgone : storage (heap w') !! key = None).
  { subst w'. destruct (storage (heap w) !! key) as [i|] eqn:Hi.
    - rewrite (Delete_present _ _ _ Hi). simpl. apply lookup_delete_eq.
    - unfold exec. by rewrite Delete_absent. }
  split_and!; [|done| |].
  - unfold exec at 1. by rewrite Delete_absent.
  - by apply Get_absent.
  - unfold Has. unfold_M. by rewrite Hgone.
Qed.

(** ** The passes of [scanExpired] and [clear] *)

(** X6: a pass of [clear] empties [expired], removes from the storage map
    exactly the entries whose keys were in it and keeps every other entry,
    keeps the size counter in step with the stored data when it was, and
    changes neither the size limit nor the count of started compactions.  A
    second pass right after it changes nothing. *)
Theorem clear_reaps w :
  let w' := exec clear w in
  expired (heap w') = ∅
  ∧ (∀ k, k ∈ expired (heap w) → storage (heap w') !! k = None)
  ∧ (∀ k, k ∉ expired (heap w) → storage (heap w') !! k = storage (heap w) !! k)
  ∧ (accounted (heap w) → accounted (heap w'))
  ∧ compactions w' = compactions w
  ∧ exec clear w' = w'.
Proof.
  intros w'. subst w'.
  pose proof (clear_expired w) as He.
  split_and!; try done.
  - intros k Hk. rewrite clear_storage. by rewrite decide_True.
  - intros k Hk. rewrite clear_storage. by rewrite decide_False.
  - apply clear_accounted.
  - revert He. generalize (exec clear w). intros [c n] He. simpl in He.
    unfold clear. unfold_M. rewrite He. by rewrite set_fold_empty.
Qed.

Lemma clear_reaps_witness :
  let late := Unix (2 * Second) in
  let w := exec (Get late late "foo")
             (exec (Put (Unix 1) "bar" b12345)
                (exec (PutWithTTL (Unix 0) (Unix 0) "foo" b10 Second) (New []))) in
  "foo" ∈ expired (heap w)
  ∧ storage (heap w) !! "foo" = Some (Item b10 (Add (Unix 0) Second) (Unix 0))
  ∧ storage (heap (exec clear w)) !! "foo" = None
  ∧ storage (heap (exec clear w)) !! "bar" = Some (Item b12345 zero (Unix 1))
  ∧ size (heap w) = 6
  ∧ accounted (heap (exec clear w)).
Proof.
  intros late w.
  assert (Hin : "foo" ∈ expired (heap w)) by (vm_compute; reflexivity).
  destruct (clear_reaps w) as (_ & Hgone & _ & Hacc & _).
  split_and!.
  - exact Hin.
  - vm_compute. reflexivity.
  - apply Hgone. exact Hin.
  - vm_compute. reflexivity.
  - vm_compute. reflexivity.
  - apply Hacc. vm_compute. reflexivity.
Defined.

(** X7: a pass of [scanExpired] with the clock reading [now] adds to
    [expired] exactly the keys of the stored entries whose expiry time is
    set and before [now]; entries without an expiry time are never marked.
    It leaves the storage map and the size counter alone, and a second pass
    with the same reading changes nothing. *)
Theorem scanExpired_marks now w :
  let w' := exec (scanExpired now) w in
  (∀ k, k ∈ expired (heap w') ↔
        k ∈ expired (heap w)
        ∨ ∃ i, storage (heap w) !! k = Some i ∧ ttl i ≠ zero ∧ ttl i < now)
  ∧ storage (heap w') = storage (heap w)
  ∧ size (heap w') = size (heap w)
  ∧ compactions w' = compactions w
  ∧ exec (scanExpired now) w' = w'.
Proof.
  intros w'. subst w'. split_and!; try done.
  - intros k. apply scanExpired_expired.
  - assert (HE : expired (heap (exec (scanExpired now) (exec (scanExpired now) w)))
                 = expired (heap (exec (scanExpired now) w))).
    { apply set_eq. intros k. rewrite !scanExpired_expired.
      destruct (scanExpired_rest now w) as (-> & _). naive_solver. }
    revert HE. unfold scanExpired. unfold_M. intros HE.
    unfold set_expired in *. simpl in *. by rewrite HE.
Qed.

(** X8: an entry stored by [PutWithTTL] is taken out of the storage map by
    the first pass of [clear] that follows a [scanExpired] pass, or a [Get]
    of its key, whose clock reads later than the expiry time.  A pass of
    [clear] alone does not remove it: nothing has marked it yet. *)
Theorem expired_entry_reaped now now' late late' k d t w :
  len d < sizeLimit (heap w) →
  0 < t →
  0 <= now →
  now + t < late →
  let w1 := exec (PutWithTTL now now' k d t) w in
  storage (heap (exec clear (exec (scanExpired late) w1))) !! k = None
  ∧ storage (heap (exec clear (exec (Get late late' k) w1))) !! k = None
  ∧ storage (heap (exec clear w1)) !! k = Some (Item d (Add now t) now').
Proof.
  intros Hlen Ht Hnow Hlate w1.
  assert (Hst : storage (heap w1) !! k = Some (Item d (Add now t) now')).
  { subst w1. rewrite PutWithTTL_stored by done. simpl. apply lookup_insert_eq. }
  assert (Hout : k ∉ expired (heap w1)).
  { subst w1. rewrite PutWithTTL_stored by done. simpl. set_solver. }
  assert (Hz : ttl (Item d (Add now t) now') ≠ zero)
    by (simpl; unfold Add, zero; lia).
  assert (Hp : ttl (Item d (Add now t) now') < late) by (simpl; unfold Add; lia).
  split_and!.
  - rewrite clear_storage, decide_True; [done|].
    apply scanExpired_expired. right. by eexists.
  - rewrite clear_storage, decide_True; [done|].
    unfold exec at 1. rewrite (Get_expired _ _ _ _ _ Hst Hz Hp). simpl. set_solver.
  - by rewrite clear_storage, decide_False.
Qed.

Lemma expired_entry_reaped_witness :
  let w1 := exec (PutWithTTL (Unix 0) (Unix 0) "foo" b10 (50 * Millisecond)) (New []) in
  storage (heap (exec clear (exec (scanExpired (Unix (60 * Millisecond))) w1))) !! "foo"
  = None.
Proof.
  intros w1.
  apply (expired_entry_reaped (Unix 0) (Unix 0) (Unix (60 * Millisecond))
           (Unix (60 * Millisecond)) "foo" b10 (50 * Millisecond) (New []));
    vm_compute; first [reflexivity | discriminate].
Defined.

(** X9: after a put that stores, [Has] answers [true] for the key at every
    clock reading when the put was [Put], and exactly at the readings
    before the expiry time when it was [PutWithTTL]. *)
Theorem Put_then_Has now now' g key d t w :
  len d < sizeLimit (heap w) →
  eval (Has g key) (exec (Put now key d) w) = true
  ∧ (0 < t → 0 <= now →
     (eval (Has g key) (exec (PutWithTTL now now' key d t) w) = true ↔ g < now + t)).
Proof.
  intros Hlen. split.
  - rewrite (Has_stored _ _ _ (Item d zero now)); [done|].
    rewrite Put_stored by done. simpl. apply lookup_insert_eq.
  - intros Ht Hnow.
    rewrite (Has_stored _ _ _ (Item d (Add now t) now')).
    + simpl. unfold IsZero, After, Add. rewrite orb_true_iff, Z.eqb_eq, Z.ltb_lt. lia.
    + rewrite PutWithTTL_stored by done. simpl. apply lookup_insert_eq.
Qed.

Lemma Put_then_Has_witness :
  eval (Has (Unix 5) "foo") (exec (Put (Unix 0) "foo" b10) (New [])) = true.
Proof.
  destruct (Put_then_Has (Unix 0) (Unix 0) (Unix 5) "foo" b10 Second (New []))
    as [H _]; [vm_compute; reflexivity|exact H].
Defined.

(** ** Writes *)

Lemma Get_eval_ext now now' k w1 w2 :
  storage (heap w1) !! k = storage (heap w2) !! k →
  eval (Get now now' k) w1 = eval (Get now now' k) w2.
Proof.
  intros H. unfold Get. unfold_M. rewrite H.
  destruct (storage (heap w2) !! k) as [i|]; [|done].
  by destruct (negb (IsZero (ttl i)) && Before (ttl i) now).
Qed.

Lemma Put_other_lookup now key d w k :
  k ≠ key →
  storage (heap (exec (Put now key d) w)) !! k = storage (heap w) !! k.
Proof.
  intros Hne. destruct (Put_cases now key d w) as [[_ ->]|[_ ->]]; [done|].
  simpl. by rewrite lookup_insert_ne.
Qed.

Lemma PutWithTTL_other_lookup now now' key d t w k :
  k ≠ key →
  storage (heap (exec (PutWithTTL now now' key d t) w)) !! k = storage (heap w) !! k.
Proof.
  intros Hne. destruct (PutWithTTL_cases now now' key d t w) as [[_ ->]|[_ ->]]; [done|].
  simpl. by rewrite lookup_insert_ne.
Qed.

(** X10: a [Put] or [PutWithTTL] under one key, stored or rejected, leaves
    every other key as it was: its entry, its mark in [expired], and what
    [Get] returns for it. *)
Theorem Put_frame now now' g g' key d t w k :
  k ≠ key →
  let w1 := exec (Put now key d) w in
  let w2 := exec (PutWithTTL now now' key d t) w in
  (storage (heap w1) !! k = storage (heap w) !! k
   ∧ (k ∈ expired (heap w1) ↔ k ∈ expired (heap w))
   ∧ eval (Get g g' k) w1 = eval (Get g g' k) w)
  ∧ (storage (heap w2) !! k = storage (heap w) !! k
     ∧ (k ∈ expired (heap w2) ↔ k ∈ expired (heap w))
     ∧ eval (Get g g' k) w2 = eval (Get g g' k) w).
Proof.
  intros Hne w1 w2. subst w1 w2. split; split_and!.
  - by apply Put_other_lookup.
  - destruct (Put_cases now key d w) as [[_ ->]|[_ ->]]; [done|]. simpl. set_solver.
  - apply Get_eval_ext. by apply Put_other_lookup.
  - by apply PutWithTTL_other_lookup.
  - destruct (PutWithTTL_cases now now' key d t w) as [[_ ->]|[_ ->]]; [done|].
    simpl. set_solver.
  - apply Get_eval_ext. by apply PutWithTTL_other_lookup.
Qed.

Lemma Put_frame_witness :
  let w := exec (Put (Unix 0) "foo" b10) (New []) in
  eval (Get (Unix 2) (Unix 2) "foo") (exec (Put (Unix 1) "bar" b12345) w)
  = eval (Get (Unix 2) (Unix 2) "foo") w.
Proof.
  intros w.
  apply (Put_frame (Unix 1) (Unix 1) (Unix 2) (Unix 2) "bar" b12345 Second w "foo").
  vm_compute. discriminate.
Defined.

(** X11: on a fresh key, [Put] followed by [Delete] restores the storage
    map and the size counter (when the counter was in the [int64] range);
    of the cache state only the mark of the key in [expired], if there was
    one, is gone. *)
Theorem Put_then_Delete now key d w :
  storage (heap w) !! key = None →
  len d < sizeLimit (heap w) →
  Int64.in_range (size (heap w)) →
  heap (exec (Delete key) (exec (Put now key d) w))
  = set_expired (λ e, e ∖ {[key]}) (heap w).
Proof.
  intros Hk Hlen Hr.
  pose proof (Put_stored now key d w Hlen) as HP.
  rewrite (Delete_present key _ (Item d zero now)).
  - simpl. rewrite HP. simpl. unfold set_expired. f_equal.
    + rewrite delete_insert_eq. by apply delete_id.
    + unfold Int64.add. rewrite wrap_add_l.
      replace (size (heap w) + len d + - len d) with (size (heap w)) by lia.
      by apply wrap_in_range.
  - rewrite HP. simpl. apply lookup_insert_eq.
Qed.

Lemma Put_then_Delete_witness :
  heap (exec (Delete "foo") (exec (Put (Unix 0) "foo" b10) (New [])))
  = set_expired (λ e, e ∖ {["foo"]}) (heap (New [])).
Proof.
  apply (Put_then_Delete (Unix 0) "foo" b10 (New [])).
  - vm_compute. reflexivity.
  - vm_compute. reflexivity.
  - vm_compute. split; discriminate.
Defined.

(** ** Compute on miss, continued *)

(** X12: on a key whose entry [Get] can serve, [GetOrNew] and
    [GetOrNewWithTTL] do exactly what [Get] does and return the stored data;
    the callback plays no part. *)
Theorem GetOrNew_hit now now' pn pn' key t cb w i :
  storage (heap w) !! key = Some i →
  live now i →
  GetOrNew now now' pn key cb w = Get now now' key w
  ∧ GetOrNewWithTTL now now' pn pn' key t cb w = Get now now' key w
  ∧ eval (GetOrNew now now' pn key cb) w = (data i, None)
  ∧ eval (GetOrNewWithTTL now now' pn pn' key t cb) w = (data i, None).
Proof.
  intros Hi Hl. pose proof (Get_live now now' key w i Hi Hl) as HG.
  assert (H1 : GetOrNew now now' pn key cb w = Get now now' key w)
    by (unfold GetOrNew, bind, ret; by rewrite HG).
  assert (H2 : GetOrNewWithTTL now now' pn pn' key t cb w = Get now now' key w)
    by (unfold GetOrNewWithTTL, bind, ret; by rewrite HG).
  unfold eval. rewrite H1, H2, HG. done.
Qed.

Lemma GetOrNew_hit_witness :
  let w := exec (Put (Unix 0) "foo" b10) (New []) in
  let cb : GetCallback := (λ _, ([], Some (ErrCallback "error1"))) in
  eval (GetOrNew (Unix 1) (Unix 1) (Unix 1) "foo" cb) w = (b10, None).
Proof.
  intros w cb.
  apply (GetOrNew_hit (Unix 1) (Unix 1) (Unix 1) (Unix 1) "foo" Second cb w
           (Item b10 zero (Unix 0))).
  - vm_compute. reflexivity.
  - left. reflexivity.
Defined.

(** X13: once [GetOrNew] has missed and its callback has returned data
    shorter than the size limit, the data is what [Get] returns for the key,
    and a further [GetOrNew] returns it whatever its callback is.  After
    [GetOrNewWithTTL] the same holds for calls whose clock reads no later
    than the expiry time. *)
Theorem GetOrNew_computes_once now now' pn pn' g g' gp gp' key t d cb cb' w :
  storage (heap w) !! key = None
  ∨ (∃ i, storage (heap w) !! key = Some i ∧ past now i) →
  cb key = (d, None) →
  len d < sizeLimit (heap w) →
  let w1 := exec (GetOrNew now now' pn key cb) w in
  let w2 := exec (GetOrNewWithTTL now now' pn pn' key t cb) w in
  (eval (Get g g' key) w1 = (d, None)
   ∧ eval (GetOrNew g g' gp key cb') w1 = (d, None))
  ∧ (g <= pn + t →
     eval (Get g g' key) w2 = (d, None)
     ∧ eval (GetOrNewWithTTL g g' gp gp' key t cb') w2 = (d, None)).
Proof.
  intros Hmiss Hcb Hlen w1 w2.
  destruct (Get_miss now now' key w Hmiss) as (w0 & HG & _ & _ & Hlim & _).
  rewrite <- Hlim in Hlen.
  assert (H1 : storage (heap w1) !! key = Some (Item d zero pn)).
  { subst w1. unfold exec at 1.
    rewrite (GetOrNew_miss_eq _ _ _ _ _ _ _ _ _ HG), Hcb. simpl.
    rewrite Put_stored by done. simpl. apply lookup_insert_eq. }
  assert (H2 : storage (heap w2) !! key = Some (Item d (Add pn t) pn')).
  { subst w2. unfold exec at 1.
    rewrite (GetOrNewWithTTL_miss_eq _ _ _ _ _ _ _ _ _ _ _ HG), Hcb. simpl.
    rewrite PutWithTTL_stored by done. simpl. apply lookup_insert_eq. }
  split.
  - assert (HL : Get g g' key w1 = ((d, None),
        MkWorld (set_storage (λ s, <[key := Item d zero g']> s) (heap w1))
                (compactions w1)))
      by (apply (Get_live g g' key w1 _ H1); by left).
    split; unfold eval; [by rewrite HL|].
    unfold GetOrNew, bind, ret. by rewrite HL.
  - intros Hg.
    assert (HL : Get g g' key w2 = ((d, None),
        MkWorld (set_storage (λ s, <[key := Item d (Add pn t) g']> s) (heap w2))
                (compactions w2)))
      by (apply (Get_live g g' key w2 _ H2); right; simpl; unfold Add; lia).
    split; unfold eval; [by rewrite HL|].
    unfold GetOrNewWithTTL, bind, ret. by rewrite HL.
Qed.

Lemma GetOrNew_computes_once_witness :
  let cb : GetCallback := (λ _, ([x30], None)) in
  let cb' : GetCallback := (λ _, ([], Some (ErrCallback "error1"))) in
  let w1 := exec (GetOrNew (Unix 0) (Unix 0) (Unix 0) "foo" cb) (New []) in
  eval (Get (Unix 1) (Unix 1) "foo") w1 = ([x30], None)
  ∧ eval (GetOrNew (Unix 1) (Unix 1) (Unix 1) "foo" cb') w1 = ([x30], None).
Proof.
  intros cb cb' w1.
  destruct (GetOrNew_computes_once (Unix 0) (Unix 0) (Unix 0) (Unix 0) (Unix 1) (Unix 1)
           (Unix 1) (Unix 1) "foo" Second [x30] cb cb' (New [])) as [H _].
  - left. vm_compute. reflexivity.
  - reflexivity.
  - vm_compute. reflexivity.
  - exact H.
Defined.

(** ** Invariants of the runs *)

Lemma evict_config s t c : config (evict s t c) = config c.
Proof.
  revert c. induction t as [|skey t IH]; intros c; simpl; [done|].
  destruct (storage c !! default ""%string (s !! skey)) as [i|]; [|by apply IH].
  destruct (_ <? _); [done|]. by rewrite IH.
Qed.

Lemma evict_storage_Some s t c k i :
  storage (evict s t c) !! k = Some i → storage c !! k = Some i.
Proof.
  revert c. induction t as [|skey t IH]; intros c; simpl; [done|].
  destruct (storage c !! default ""%string (s !! skey)) as [j|] eqn:Hj; [|by apply IH].
  assert (Hdel : ∀ c', storage c' = delete (default ""%string (s !! skey)) (storage c) →
                       storage c' !! k = Some i → storage c !! k = Some i).
  { intros c' -> H. apply lookup_delete_Some in H. tauto. }
  destruct (_ <? _).
  - by apply Hdel.
  - intros H. apply IH in H. revert H. by apply Hdel.
Qed.

Lemma clear_key_config k c : config (clear_key k c) = config c.
Proof. unfold clear_key. simpl. by destruct (storage c !! k). Qed.

Lemma clear_config w : config (heap (exec clear w)) = config (heap w).
Proof.
  unfold clear. unfold_M. unfold set_fold. simpl.
  induction (elements (expired (heap w))) as [|k l IH]; simpl; [done|].
  by rewrite clear_key_config.
Qed.

Lemma compact_heap keys w :
  ∃ s t, heap (exec (compact keys) w) = evict s t (heap w).
Proof.
  unfold compact. unfold_M.
  destruct (snapshot keys (storage (heap w))) as [s t]. simpl. by exists s, (merge_sort Z.le t).
Qed.

Lemma Get_config now now' key w :
  config (heap (exec (Get now now' key) w)) = config (heap w).
Proof.
  unfold exec.
  by destruct (Get_cases now now' key w) as [[_ ->]|[(i & _ & _ & ->)|(i & _ & _ & ->)]].
Qed.

Lemma Put_config now key d w :
  config (heap (exec (Put now key d) w)) = config (heap w).
Proof. by destruct (Put_cases now key d w) as [[_ ->]|[_ ->]]. Qed.

Lemma PutWithTTL_config now now' key d t w :
  config (heap (exec (PutWithTTL now now' key d t) w)) = config (heap w).
Proof. by destruct (PutWithTTL_cases now now' key d t w) as [[_ ->]|[_ ->]]. Qed.

Lemma Delete_cases key w :
  exec (Delete key) w = w
  ∨ ∃ i, storage (heap w) !! key = Some i
         ∧ exec (Delete key) w =
             MkWorld
               (MkCache (delete key (storage (heap w))) (expired (heap w))
                        (clearExpireTimout (heap w)) (checkExpireTimout (heap w))
                        (sizeLimit (heap w))
                        (Int64.add (size (heap w)) (- len (data i))))
               (compactions w).
Proof.
  destruct (storage (heap w) !! key) as [i|] eqn:Hi.
  - right. exists i. split; [done|]. by apply Delete_present.
  - left. unfold exec. by rewrite Delete_absent.
Qed.

Lemma step_config e w w' :
  step e w = Some w' → config (heap w') = config (heap w).
Proof.
  intros Hs. destruct e; simpl in Hs; simplify_eq.
  - apply Get_config.
  - destruct (GetOrNew_exec now now' put_now key cb w) as [->|[d ->]];
      by rewrite ?Put_config, Get_config.
  - destruct (GetOrNewWithTTL_exec now now' put_now put_now' key t cb w) as [->|[d ->]];
      by rewrite ?PutWithTTL_config, Get_config.
  - by rewrite Has_exec.
  - by destruct (Delete_cases key w) as [->|(i & _ & ->)].
  - apply Put_config.
  - apply PutWithTTL_config.
  - done.
  - apply clear_config.
  - destruct (compactions w) as [|n]; [done|].
    case_decide; [|done]. simplify_eq.
    destruct (compact_heap keys (MkWorld (heap w) n)) as (s & t & ->).
    apply evict_config.
Qed.

Lemma config_sizeLimit c c' : config c' = config c → sizeLimit c' = sizeLimit c.
Proof. unfold config. congruence. Qed.

Lemma Get_below_limit now now' key w :
  below_limit (heap w) → below_limit (heap (exec (Get now now' key) w)).
Proof.
  intros Hb k j. unfold exec.
  destruct (Get_cases now now' key w) as [[_ ->]|[(i & Hi & _ & ->)|(i & Hi & _ & ->)]];
    simpl; try apply Hb.
  destruct (decide (key = k)) as [->|Hne].
  - rewrite lookup_insert_eq. intros ?; simplify_eq. simpl. by apply (Hb k i).
  - rewrite lookup_insert_ne by done. apply Hb.
Qed.

Lemma Put_below_limit now key d w :
  below_limit (heap w) → below_limit (heap (exec (Put now key d) w)).
Proof.
  intros Hb k j. destruct (Put_cases now key d w) as [[_ ->]|[Hlen ->]]; [apply Hb|].
  simpl. destruct (decide (key = k)) as [->|Hne].
  - rewrite lookup_insert_eq. intros ?; by simplify_eq.
  - rewrite lookup_insert_ne by done. apply Hb.
Qed.

Lemma PutWithTTL_below_limit now now' key d t w :
  below_limit (heap w) → below_limit (heap (exec (PutWithTTL now now' key d t) w)).
Proof.
  intros Hb k j.
  destruct (PutWithTTL_cases now now' key d t w) as [[_ ->]|[Hlen ->]]; [apply Hb|].
  simpl. destruct (decide (key = k)) as [->|Hne].
  - rewrite lookup_insert_eq. intros ?; by simplify_eq.
  - rewrite lookup_insert_ne by done. apply Hb.
Qed.

Lemma step_below_limit e w w' :
  step e w = Some w' → below_limit (heap w) → below_limit (heap w').
Proof.
  intros Hs Hb. destruct e; simpl in Hs; simplify_eq.
  - by apply Get_below_limit.
  - destruct (GetOrNew_exec now now' put_now key cb w) as [->|[d ->]].
    + by apply Get_below_limit.
    + by apply Put_below_limit, Get_below_limit.
  - destruct (GetOrNewWithTTL_exec now now' put_now put_now' key t cb w) as [->|[d ->]].
    + by apply Get_below_limit.
    + by apply PutWithTTL_below_limit, Get_below_limit.
  - by rewrite Has_exec.
  - destruct (Delete_cases key w) as [->|(i & _ & ->)]; [done|].
    intros k j. simpl. intros [_ H]%lookup_delete_Some. by apply (Hb k j).
  - by apply Put_below_limit.
  - by apply PutWithTTL_below_limit.
  - done.
  - intros k j. rewrite clear_storage, (config_sizeLimit _ _ (clear_config w)).
    case_decide; [done|]. apply Hb.
  - destruct (compactions w) as [|n]; [done|].
    case_decide; [|done]. simplify_eq.
    destruct (compact_heap keys (MkWorld (heap w) n)) as (s & t & ->).
    intros k j Hj. rewrite evict_sizeLimit.
    apply (Hb k j). by apply evict_storage_Some in Hj.
Qed.

(** X14: in every state a run reaches from [New], the two timeouts and the
    size limit are the ones [New] set from the options, and every stored
    entry is shorter than the size limit. *)
Theorem run_keeps_config options tr w :
  run tr (New options) = Some w →
  clearExpireTimout (heap w) = clearExpireTimout (heap (New options))
  ∧ checkExpireTimout (heap w) = checkExpireTimout (heap (New options))
  ∧ sizeLimit (heap w) = sizeLimit (heap (New options))
  ∧ ∀ k i, storage (heap w) !! k = Some i → len (data i) < sizeLimit (heap w).
Proof.
  assert (Hgen : ∀ w0, run tr w0 = Some w → below_limit (heap w0) →
                       config (heap w) = config (heap w0) ∧ below_limit (heap w)).
  { induction tr as [|e tr IH]; intros w0 Hr Hb; simpl in Hr; [by simplify_eq|].
    destruct (step e w0) as [w1|] eqn:Hs; [|done].
    destruct (IH w1 Hr) as [Hc Hb']; [by apply (step_below_limit e w0)|].
    split; [|done]. rewrite Hc. by apply (step_config e). }
  intros Hr. destruct (Hgen (New options) Hr) as [Hc Hb].
  { intros k i. destruct (New_fields options) as (-> & _). by rewrite lookup_empty. }
  unfold config in Hc. simplify_eq. done.
Qed.

Lemma run_keeps_config_witness :
  ∃ w, run [EvPut (Unix 0) "foo" b10; EvDelete "foo"] (New [WithSizeLimit 6]) = Some w
       ∧ sizeLimit (heap w) = 6.
Proof.
  eexists. split; [reflexivity|].
  destruct (run_keeps_config [WithSizeLimit 6] [EvPut (Unix 0) "foo" b10; EvDelete "foo"]
              _ eq_refl) as (_ & _ & H & _).
  exact H.
Defined.

Lemma total_size_nonneg (st : gmap string item) : 0 <= total_size st.
Proof.
  unfold total_size.
  apply (map_fold_weak_ind (λ (r : Z) (_ : gmap string item), 0 <= r)); [done|].
  intros k i m r _ Hr. unfold len. lia.
Qed.

(** ** Compaction, continued *)

Lemma snapshot_empty keys : snapshot keys ∅ = (∅, []).
Proof.
  unfold snapshot. generalize (∅ : gmap Z string, [] : list Z).
  induction keys as [|k keys IH]; intros acc; simpl; [done|].
  unfold snapshot_step at 2. rewrite lookup_empty. apply IH.
Qed.

(** X17: a pass of [compact], whatever the iteration order and the
    timestamps, only removes entries: every entry left is an entry that was
    there, unchanged.  It leaves [expired], the size limit and the timeouts
    alone, keeps the size counter in step with the stored data when it was,
    and does nothing at all on an empty storage map. *)
Theorem compact_frame keys w :
  let w' := exec (compact keys) w in
  (∀ k i, storage (heap w') !! k = Some i → storage (heap w) !! k = Some i)
  ∧ expired (heap w') = expired (heap w)
  ∧ config (heap w') = config (heap w)
  ∧ compactions w' = compactions w
  ∧ (accounted (heap w) → accounted (heap w'))
  ∧ (storage (heap w) = ∅ → w' = w).
Proof.
  intros w'. subst w'. split_and!.
  - intros k i. destruct (compact_heap keys w) as (s & t & ->).
    apply evict_storage_Some.
  - apply compact_expired.
  - destruct (compact_heap keys w) as (s & t & ->). apply evict_config.
  - unfold compact. unfold_M. by destruct (snapshot keys (storage (heap w))).
  - apply compact_accounted.
  - intros He. unfold compact. unfold_M. rewrite He, snapshot_empty. simpl.
    by destruct w.
Qed.

Lemma compact_frame_witness :
  let w := exec (Put (Unix 0) "foo" b10) (New []) in
  accounted (heap (exec (compact ["foo"%string]) w)).
Proof.
  intros w. apply (compact_frame ["foo"%string] w). vm_compute. reflexivity.
Defined.

(** The first loop of [compact] in general: [t] lists the timestamps of the
    keys, and [s] maps each of them to one of the keys. *)
Lemma snapshot_stored keys st :
  (∀ k, k ∈ keys → is_Some (st !! k)) →
  snd (snapshot keys st) = stamp st <$> keys
  ∧ ∀ n, n ∈ snd (snapshot keys st) →
         ∃ k, k ∈ keys ∧ fst (snapshot keys st) !! n = Some k.
Proof.
  unfold snapshot.
  induction keys as [|k keys IH] using rev_ind; intros Hin.
  - split; [done|]. intros n Hn. simpl in Hn. by apply elem_of_nil in Hn.
  - rewrite foldl_snoc, fmap_app.
    destruct IH as [IHt IHs]; [set_solver|].
    assert (Hk : is_Some (st !! k)) by (apply Hin; set_solver).
    rewrite snapshot_step_stored by done. simpl. rewrite IHt. split; [done|].
    intros n Hn. destruct (decide (n = stamp st k)) as [->|Hne].
    + exists k. rewrite lookup_insert_eq. set_solver.
    + rewrite lookup_insert_ne by done.
      apply elem_of_app in Hn as [Hn|Hn]; [|set_solver].
      rewrite <- IHt in Hn. destruct (IHs n Hn) as (k' & ? & ?).
      exists k'. set_solver.
Qed.

(** X18: a pass of [compact] over a storage map that is not empty always
    evicts at least one entry, also when the size counter is below the size
    limit before it starts: the limit is tested only after an eviction. *)
Theorem compact_evicts_an_entry keys w :
  keys ≡ₚ storage_keys (heap w) →
  storage (heap w) ≠ ∅ →
  ∃ k, evicted (heap w) (heap (exec (compact keys) w)) k.
Proof.
  intros Hperm Hne. set (st := storage (heap w)).
  assert (Hkeys : ∀ k, k ∈ keys → is_Some (st !! k)).
  { intros k Hk. apply storage_keys_elem_of. by rewrite <- Hperm. }
  assert (Hnil : keys ≠ []).
  { intros ->. apply Hne. apply map_empty. intros k.
    destruct (storage (heap w) !! k) as [i|] eqn:Hi; [|done].
    assert (k ∈ storage_keys (heap w)) as Hk
      by (apply storage_keys_elem_of; by rewrite Hi).
    rewrite <- Hperm in Hk. by apply elem_of_nil in Hk. }
  destruct (snapshot_stored keys st Hkeys) as [Ht Hs].
  unfold compact. unfold_M. fold st.
  destruct (snapshot keys st) as [s t] eqn:Hsnap. simpl in *.
  pose proof (merge_sort_Permutation Z.le t) as Hsort.
  destruct (merge_sort Z.le t) as [|n ts] eqn:Hts.
  { apply Permutation_nil_l in Hsort. subst t.
    symmetry in Hsort. apply fmap_nil_inv in Hsort. done. }
  destruct (Hs n) as (k & Hk & Hsn); [rewrite <- Hsort; set_solver|].
  destruct (Hkeys k Hk) as [i Hi].
  exists k. unfold evicted. fold st. split; [by rewrite Hi|].
  simpl. rewrite Hsn. simpl. fold st. rewrite Hi.
  set (c1 := set_size _ _).
  assert (Hc1 : storage c1 !! k = None) by (simpl; apply lookup_delete_eq).
  destruct (_ <? _); [done|].
  destruct (storage (evict s ts c1) !! k) as [j|] eqn:Hj; [|done].
  apply evict_storage_Some in Hj. congruence.
Qed.

Lemma compact_evicts_an_entry_witness :
  let w := exec (Put (Unix 0) "foo" b10) (New []) in
  size (heap w) < sizeLimit (heap w)
  ∧ ∃ k, evicted (heap w) (heap (exec (compact ["foo"%string]) w)) k.
Proof.
  intros w. split; [vm_compute; reflexivity|].
  apply (compact_evicts_an_entry ["foo"%string] w).
  - vm_compute. reflexivity.
  - intros H. apply (f_equal (λ m, m !! "foo"%string)) in H.
    vm_compute in H. discriminate.
Defined.

(** X19: when no two stored entries have the same timestamp (and the
    timestamps are instants [UnixNano] can represent), a pass of [compact]
    evicts oldest first: an entry is evicted only if every entry last used
    before it is evicted too.  The pass ends with the size counter below
    the size limit unless it has emptied the storage map; with a counter in
    step with the stored data and a positive limit it always ends below the
    limit. *)
Theorem compact_evicts_oldest keys w :
  keys ≡ₚ storage_keys (heap w) →
  distinct_stamps (storage (heap w)) →
  (∀ k i, storage (heap w) !! k = Some i → stampable (lu i)) →
  let c' := heap (exec (compact keys) w) in
  (∀ k1 k2 i1 i2,
     storage (heap w) !! k1 = Some i1 →
     storage (heap w) !! k2 = Some i2 →
     lu i1 < lu i2 →
     storage c' !! k2 = None → storage c' !! k1 = None)
  ∧ ((∃ k, is_Some (storage c' !! k)) → size c' < sizeLimit (heap w))
  ∧ (accounted (heap w) → 0 < sizeLimit (heap w) → size c' < sizeLimit (heap w)).
Proof.
  intros Hperm Hd Hst c'.
  assert (Hleft : (∃ k, is_Some (storage c' !! k)) ∨ storage c' = ∅).
  { subst c'.
    destruct (compact_distinct keys w Hperm Hd) as (order & n & Ho & _ & He & Hn & _).
    rewrite He. destruct (decide (n < length order)%nat) as [Hlt|Hge].
    - left. destruct (lookup_lt_is_Some_2 order n Hlt) as [k Hk].
      exists k. rewrite remove_keys_lookup.
      assert (Hin : k ∈ order) by by eapply list_elem_of_lookup_2.
      rewrite decide_False.
      + apply storage_keys_elem_of. by rewrite <- Hperm, <- Ho.
      + intros (j & Hj & Hjn)%elem_of_take.
        assert (NoDup order) as Hnd.
        { rewrite Ho, Hperm. apply NoDup_fst_map_to_list. }
        pose proof (NoDup_lookup _ _ _ _ Hnd Hj Hk). lia.
    - right. apply map_empty. intros k. rewrite remove_keys_lookup.
      rewrite take_ge by lia. case_decide as Hk; [done|].
      destruct (storage (heap w) !! k) as [i|] eqn:Hi; [|done].
      exfalso. apply Hk. rewrite Ho, Hperm. apply storage_keys_elem_of.
      by rewrite Hi. }
  assert (Hstop : (∃ k, is_Some (storage c' !! k)) → size c' < sizeLimit (heap w)).
  { intros [k [i Hk]]. subst c'.
    destruct (compact_distinct keys w Hperm Hd) as (order & n & Ho & _ & He & Hn & _ & _ & Hs).
    apply Hs. destruct (decide (n < length order)%nat) as [|Hge]; [done|exfalso].
    rewrite He, remove_keys_lookup, take_ge in Hk by lia.
    case_decide as Hin; [done|]. apply Hin.
    rewrite Ho, Hperm. apply storage_keys_elem_of. by rewrite Hk. }
  split_and!.
  - intros k1 k2 i1 i2 H1 H2 Hlt Hgone.
    assert (He : evicted (heap w) c' k2) by (split; [by rewrite H2|done]).
    by destruct (compact_oldest_first keys w k1 k2 i1 i2 Hperm Hd H1 H2
                   (Hst _ _ H1) (Hst _ _ H2) Hlt He).
  - exact Hstop.
  - intros Ha Hpos. destruct Hleft as [Hsome|Hempty]; [by apply Hstop|].
    pose proof (compact_accounted keys w Ha) as Ha'. fold c' in Ha'.
    unfold accounted in Ha'. rewrite Hempty, total_size_empty in Ha'.
    rewrite Ha'. vm_compute Int64.wrap. done.
Qed.

Lemma compact_evicts_oldest_witness :
  let w := exec (Put (Unix 2) "b" b12345)
             (exec (Put (Unix 1) "a" b12345) (New [WithSizeLimit 6])) in
  size (heap (exec (compact ["a"; "b"]%string) w)) < sizeLimit (heap w).
Proof.
  intros w.
  assert (Hkeys : storage_keys (heap w) = ["a"; "b"]%string) by (vm_compute; reflexivity).
  destruct (compact_evicts_oldest ["a"; "b"]%string w) as (_ & Hstop & _).
  - by rewrite Hkeys.
  - intros k1 k2 H1%storage_keys_elem_of H2%storage_keys_elem_of Heq.
    rewrite Hkeys in H1, H2.
    apply elem_of_cons in H1 as [->|H1%list_elem_of_singleton];
      apply elem_of_cons in H2 as [->|H2%list_elem_of_singleton];
      subst; try done; vm_compute in Heq; discriminate.
  - intros k i Hi.
    assert (Hk : k ∈ storage_keys (heap w))
      by (apply storage_keys_elem_of; by rewrite Hi).
    rewrite Hkeys in Hk.
    apply elem_of_cons in Hk as [Hk|Hk%list_elem_of_singleton]; subst k;
      vm_compute in Hi; simplify_eq; vm_compute; split; discriminate.
  - apply Hstop. exists "b"%string. vm_compute. eauto.
Defined.

(** ** The size counter and the start of a compaction *)

Lemma Put_compactions now key d w :
  len d < sizeLimit (heap w) →
  compactions (exec (Put now key d) w) =
  if sizeLimit (heap w) <? Int64.add (size (heap w)) (len d)
  then S (compactions w) else compactions w.
Proof.
  intros H. unfold Put. unfold_M. rewrite Zleb_false by done.
  by destruct (_ <? _).
Qed.

(** X20: when the size counter is in step with the stored data, a [Put]
    that stores under a fresh key keeps it in step, and it starts a
    compaction exactly when the bytes then stored exceed the size limit;
    with the bytes stored equal to the limit none is started. *)
Theorem Put_starts_compaction now key d w :
  accounted (heap w) →
  storage (heap w) !! key = None →
  len d < sizeLimit (heap w) →
  total_size (storage (heap w)) + len d <= Int64.max_signed →
  let w' := exec (Put now key d) w in
  total_size (storage (heap w')) = total_size (storage (heap w)) + len d
  ∧ size (heap w') = total_size (storage (heap w'))
  ∧ (sizeLimit (heap w) < total_size (storage (heap w')) →
     compactions w' = S (compactions w))
  ∧ (total_size (storage (heap w')) <= sizeLimit (heap w) →
     compactions w' = compactions w).
Proof.
  intros Ha Hk Hlen Hmax w'.
  assert (Ht : total_size (storage (heap w')) = total_size (storage (heap w)) + len d).
  { subst w'. rewrite Put_stored by done. simpl.
    by rewrite total_size_insert_fresh. }
  assert (Hs : Int64.add (size (heap w)) (len d) = total_size (storage (heap w'))).
  { rewrite Ht, Ha. unfold Int64.add. rewrite wrap_add_l. apply wrap_in_range.
    pose proof (total_size_nonneg (storage (heap w))).
    unfold Int64.in_range, Int64.min_signed, Int64.max_signed, len in *. lia. }
  split_and!.
  - done.
  - subst w'. rewrite <- Hs. by rewrite Put_stored.
  - intros Hover. subst w'. rewrite Put_compactions, Hs by done.
    by rewrite (proj2 (Z.ltb_lt _ _) Hover).
  - intros Hunder. subst w'. rewrite Put_compactions, Hs by done.
    by rewrite (proj2 (Z.ltb_ge _ _) Hunder).
Qed.

Lemma Put_starts_compaction_witness :
  let w := exec (Put (Unix 0) "a" b12345) (New [WithSizeLimit 6]) in
  compactions (exec (Put (Unix 1) "b" b12345) w) = 1%nat.
Proof.
  intros w.
  destruct (Put_starts_compaction (Unix 1) "b" b12345 w) as (_ & _ & Hover & _).
  - vm_compute. reflexivity.
  - vm_compute. reflexivity.
  - vm_compute. reflexivity.
  - vm_compute. discriminate.
  - apply Hover. vm_compute. reflexivity.
Defined.

(** X21: [PutWithTTL] with a zero or negative duration stores the entry
    and counts its bytes, but the entry is served to no reader whose clock
    is later than its expiry time: [Get] returns [ErrNotFound] and marks it,
    and [Has] returns [false]. *)
Theorem PutWithTTL_nonpositive now now' g g' key d t w :
  len d < sizeLimit (heap w) →
  t <= 0 →
  0 < now + t →
  now + t < g →
  let w' := exec (PutWithTTL now now' key d t) w in
  storage (heap w') !! key = Some (Item d (Add now t) now')
  ∧ size (heap w') = Int64.add (size (heap w)) (len d)
  ∧ eval (Get g g' key) w' = ([], Some ErrNotFound)
  ∧ key ∈ expired (heap (exec (Get g g' key) w'))
  ∧ eval (Has g key) w' = false.
Proof.
  intros Hlen Ht Hpos Hg w'.
  assert (Hst : storage (heap w') !! key = Some (Item d (Add now t) now')).
  { subst w'. rewrite PutWithTTL_stored by done. simpl. apply lookup_insert_eq. }
  assert (Hz : ttl (Item d (Add now t) now') ≠ zero) by (simpl; unfold Add, zero; lia).
  assert (Hp : ttl (Item d (Add now t) now') < g) by (simpl; unfold Add; lia).
  split_and!.
  - done.
  - subst w'. by rewrite PutWithTTL_stored.
  - unfold eval. by rewrite (Get_expired _ _ _ _ _ Hst Hz Hp).
  - unfold exec. rewrite (Get_expired _ _ _ _ _ Hst Hz Hp). simpl. set_solver.
  - rewrite (Has_stored _ _ _ _ Hst). simpl. unfold IsZero, After, Add.
    apply orb_false_iff. rewrite Z.eqb_neq, Z.ltb_ge. lia.
Qed.

Lemma PutWithTTL_nonpositive_witness :
  let w' := exec (PutWithTTL (Unix 5) (Unix 5) "foo" b10 (-1 * Second)) (New []) in
  eval (Get (Unix 5) (Unix 5) "foo") w' = ([], Some ErrNotFound).
Proof.
  intros w'.
  apply (PutWithTTL_nonpositive (Unix 5) (Unix 5) (Unix 5) (Unix 5) "foo" b10
           (-1 * Second) (New []));
    vm_compute; first [reflexivity | discriminate].
Defined.


(** * Interleaved runs *)

Example interleaved_Put_Get :
  ∃ σ, acts [APutStore (Unix 0) "foo" b10; AGetLookup "foo"; APutCount 0;
             AGetFinish 0 (Unix 1) (Unix 2)] (boot []) = Some σ
       ∧ storage (mem σ) !! "foo" = Some (Item b10 zero (Unix 2))
       ∧ size (mem σ) = 1.
Proof. eexists. split; [vm_compute; reflexivity|]. split; vm_compute; reflexivity. Qed.

(** ** Equations of the actions *)

Lemma elem_of_held σ k :
  k ∈ held σ ↔ ∃ f, f ∈ gets σ ∧ ttl (fl_item f) ≠ zero ∧ fl_key f = k.
Proof.
  unfold held. rewrite list_elem_of_fmap. split.
  - intros (f & -> & [Hz Hf]%list_elem_of_filter). by exists f.
  - intros (f & Hf & Hz & <-). exists f. split; [done|].
    by apply list_elem_of_filter.
Qed.

Lemma held_lookup n σ f :
  gets σ !! n = Some f → ttl (fl_item f) ≠ zero → fl_key f ∈ held σ.
Proof.
  intros H Hz. apply elem_of_held. exists f. split_and!; try done.
  by eapply list_elem_of_lookup_2.
Qed.

Lemma locked_Delete_cases key σ :
  locked (Delete key) σ = σ
  ∨ ∃ i, storage (mem σ) !! key = Some i
         ∧ locked (Delete key) σ =
             set_mem (λ c, set_size (λ n, Int64.add n (- len (data i)))
                             (set_storage (λ m, delete key m) c)) σ.
Proof.
  unfold locked, set_mem.
  destruct (storage (mem σ) !! key) as [i|] eqn:Hi.
  - right. exists i. split; [done|].
    by rewrite (Delete_present key (MkWorld (mem σ) (started σ)) i Hi).
  - left. unfold exec. rewrite Delete_absent by done. by destruct σ.
Qed.

Lemma locked_Has now key σ : locked (Has now key) σ = σ.
Proof. unfold locked, set_mem. rewrite Has_exec. by destruct σ. Qed.

Lemma touch_mem f now' σ :
  mem (touch f now' σ) = mem σ
  ∨ ∃ j, storage (mem σ) !! fl_key f = Some j
         ∧ mem (touch f now' σ)
           = set_storage (λ s, <[fl_key f := Item (data j) (ttl j) now']> s) (mem σ).
Proof.
  unfold touch. destruct (storage (mem σ) !! fl_key f) as [j|] eqn:Hj; [|by left].
  case_decide; [|by left]. right. by exists j.
Qed.

Lemma touch_rest f now' σ :
  gets (touch f now' σ) = gets σ ∧ counts (touch f now' σ) = counts σ
  ∧ busy (touch f now' σ) = busy σ ∧ started (touch f now' σ) = started σ.
Proof.
  unfold touch. destruct (storage (mem σ) !! fl_key f) as [j|]; [|done].
  by case_decide.
Qed.

(** ** The [expired] set and the storage map, interleaved *)

Lemma touch_is_Some f now' σ k :
  is_Some (storage (mem (touch f now' σ)) !! k) ↔ is_Some (storage (mem σ) !! k).
Proof.
  destruct (touch_mem f now' σ) as [->|(j & Hj & ->)]; [done|]. simpl.
  destruct (decide (fl_key f = k)) as [<-|Hne].
  - rewrite lookup_insert_eq, Hj. split; eauto.
  - by rewrite lookup_insert_ne.
Qed.

Lemma act_marks_stored a σ σ' :
  act a σ = Some σ' →
  careful a σ = true →
  marks_stored σ → marks_stored σ'.
Proof.
  intros Ha Hc [He Hh].
  destruct a; simpl in Ha.
  - (* lookup *)
    destruct (busy σ); [done|]. simplify_eq. unfold get_lookup.
    destruct (storage (mem σ) !! key) as [i|] eqn:Hi; [|done].
    split; [done|]. intros k (f & Hf & Hz & <-)%elem_of_held. simpl in Hf.
    apply elem_of_app in Hf as [Hf|Hf]; [apply Hh, elem_of_held; eauto|].
    apply list_elem_of_singleton in Hf as ->. simpl. by rewrite Hi.
  - (* finish *)
    unfold get_finish in Ha. destruct (gets σ !! n) as [f|] eqn:Hf; [|done].
    assert (Hsub : ∀ k, k ∈ held (set_gets (λ g, delete n g) σ) → k ∈ held σ).
    { intros k (f' & Hf' & Hz & <-)%elem_of_held. apply elem_of_held.
      simpl in Hf'. exists f'. split_and!; try done.
      by eapply list_elem_of_delete_inv. }
    destruct (negb (IsZero (ttl (fl_item f))) && Before (ttl (fl_item f)) now) eqn:Hp.
    + assert (σ' = set_mem (set_expired (λ e, {[fl_key f]} ∪ e))
                     (set_gets (λ g, delete n g) σ)) as ->
        by (destruct (busy σ) as [[]|]; by simplify_eq).
      apply past_test in Hp as [Hz _].
      pose proof (Hh _ (held_lookup _ _ _ Hf Hz)) as Hkey.
      split.
      * simpl. intros k [->%elem_of_singleton|Hk]%elem_of_union; [done|by apply He].
      * intros k Hk. by apply Hh, Hsub.
    + simplify_eq. split.
      * intros k Hk. apply touch_is_Some. simpl. apply He.
        destruct (touch_mem f now' (set_gets (λ g, delete n g) σ)) as [H|(j & _ & H)];
          rewrite H in Hk; exact Hk.
      * intros k (f' & Hf' & Hz & <-)%elem_of_held.
        rewrite (proj1 (touch_rest f now' (set_gets (λ g, delete n g) σ))) in Hf'.
        apply touch_is_Some. simpl. apply Hh, Hsub, elem_of_held. eauto.
  - (* has *)
    destruct (busy σ); [done|]. simplify_eq. by rewrite locked_Has.
  - (* delete *)
    destruct (busy σ) eqn:Hb; [done|]. simplify_eq.
    unfold careful in Hc. apply bool_decide_eq_true in Hc as [Hne Hnh].
    destruct (locked_Delete_cases key σ) as [->|(i & Hi & ->)]; [done|].
    split; simpl.
    + intros k Hk. rewrite lookup_delete_ne; [by apply He|]. by intros ->.
    + intros k Hk. rewrite lookup_delete_ne; [by apply Hh|]. by intros ->.
  - (* put *)
    destruct (busy σ); [done|]. simplify_eq. unfold put_store.
    destruct (_ <=? _); [done|]. split; simpl.
    + intros k [Hk Hne]%elem_of_difference.
      rewrite lookup_insert_ne by set_solver. by apply He.
    + intros k Hk. destruct (decide (key = k)) as [->|Hne].
      * by rewrite lookup_insert_eq.
      * rewrite lookup_insert_ne by done. by apply Hh.
  - (* put with ttl *)
    destruct (busy σ); [done|]. simplify_eq. unfold put_store.
    destruct (_ <=? _); [done|]. split; simpl.
    + intros k [Hk Hne]%elem_of_difference.
      rewrite lookup_insert_ne by set_solver. by apply He.
    + intros k Hk. destruct (decide (key = k)) as [->|Hne].
      * by rewrite lookup_insert_eq.
      * rewrite lookup_insert_ne by done. by apply Hh.
  - (* count *)
    unfold put_count in Ha. destruct (counts σ !! n); [|done]. by simplify_eq.
  - (* scan *)
    destruct (busy σ); [done|]. simplify_eq. split; [|done].
    intros k.
    change (mem (locked (scanExpired now) σ))
      with (heap (exec (scanExpired now) (MkWorld (mem σ) (started σ)))).
    intros [Hk|(i & Hi & _)]%scanExpired_expired; simpl; [by apply He|].
    simpl in Hi. by rewrite Hi.
  - (* clear takes the locks *)
    destruct (busy σ); [done|]. case_decide; [|done]. by simplify_eq.
  - (* clear, one key *)
    destruct (busy σ) as [[|keys]|] eqn:Hb; try done. simplify_eq.
    unfold careful in Hc. rewrite Hb in Hc.
    destruct keys as [|key keys]; [done|]. apply bool_decide_eq_true in Hc.
    assert (Hst : ∀ k, k ≠ key →
              storage (clear_key key (mem σ)) !! k = storage (mem σ) !! k).
    { intros k Hne. unfold clear_key. simpl.
      destruct (storage (mem σ) !! key); simpl; [|done]. by rewrite lookup_delete_ne. }
    assert (Hex : expired (clear_key key (mem σ)) = expired (mem σ) ∖ {[key]}).
    { unfold clear_key. simpl. by destruct (storage (mem σ) !! key). }
    split; simpl.
    + intros k. rewrite Hex. intros [Hk Hne]%elem_of_difference.
      rewrite Hst by set_solver. by apply He.
    + intros k Hk. rewrite Hst; [by apply Hh|]. by intros ->.
  - (* snapshot *)
    destruct (busy σ); [done|]. destruct (started σ); [done|].
    case_decide; [|done]. destruct (snapshot keys (storage (mem σ))). by simplify_eq.
  - (* compact takes the lock *)
    destruct (busy σ); [done|]. destruct (sweeps σ !! n) as [[s t]|]; [|done].
    by simplify_eq.
  - (* evict *)
    destruct (busy σ) as [[s t checking|]|] eqn:Hb; try done. simplify_eq.
    unfold careful in Hc. rewrite Hb in Hc. unfold evict_next.
    destruct checking; [by destruct (_ <? _)|].
    destruct t as [|skey t]; [done|]. apply bool_decide_eq_true in Hc as [Hne Hnh].
    destruct (storage (mem σ) !! default ""%string (s !! skey)) as [i|] eqn:Hi; [|done].
    split; simpl.
    + intros k Hk. rewrite lookup_delete_ne; [by apply He|].
      intros Heq. by rewrite <- Heq in Hk.
    + intros k Hk. rewrite lookup_delete_ne; [by apply Hh|].
      intros Heq. by rewrite <- Heq in Hk.
Qed.

Lemma acts_marks_stored l σ σ' :
  acts l σ = Some σ' →
  throughout careful l σ = true →
  marks_stored σ → marks_stored σ'.
Proof.
  revert σ. induction l as [|a l IH]; intros σ Hr Hc Hm; simpl in Hr, Hc.
  - by simplify_eq.
  - apply andb_prop in Hc as [Ha Hl].
    destruct (act a σ) as [σ1|] eqn:Hs; [|done].
    apply (IH σ1); [done..|]. by apply (act_marks_stored a σ).
Qed.

Lemma boot_marks_stored options : marks_stored (boot options).
Proof.
  destruct (New_fields options) as (_ & He & _). split; intros k.
  - unfold boot. cbn [mem]. rewrite He. set_solver.
  - intros (f & Hf & _)%elem_of_held. simpl in Hf. by apply elem_of_nil in Hf.
Qed.

(** C3, as the code has it: let calls and passes interleave in any way,
    from a state in which every key of [expired], and every key that a
    [Get] in progress can still mark, is stored; the state [New] makes is
    one.  As long as no [Delete] and no eviction of [compact] removes an
    entry whose key is in [expired] or can still be marked by a [Get] in
    progress, and no step of [clear] removes an entry whose key can still
    be marked by a [Get] in progress, every key of [expired] is a key of
    the storage map. *)
Theorem pending_keys_stored σ0 l σ :
  (∀ k, k ∈ expired (mem σ0) → is_Some (storage (mem σ0) !! k)) →
  (∀ k, k ∈ held σ0 → is_Some (storage (mem σ0) !! k)) →
  acts l σ0 = Some σ →
  throughout careful l σ0 = true →
  ∀ k, k ∈ expired (mem σ) → is_Some (storage (mem σ) !! k).
Proof.
  intros He Hh Hr Hc.
  by apply (acts_marks_stored l σ0 σ Hr Hc).
Qed.

Lemma pending_keys_stored_witness :
  let late := Unix (2 * Second) in
  ∃ σ, acts [APutWithTTLStore (Unix 0) (Unix 0) "foo" b10 Second; APutCount 0;
             APutStore (Unix 1) "bar" b10; AGetLookup "foo"; AGetLookup "bar";
             APutCount 0; ADelete "bar"; AGetFinish 0 late late] (boot []) = Some σ
       ∧ "foo" ∈ expired (mem σ)
       ∧ is_Some (storage (mem σ) !! "foo").
Proof.
  intros late. eexists. split; [vm_compute; reflexivity|].
  match goal with |- ?A ∧ _ => assert (Hin : A) by (vm_compute; reflexivity) end.
  split; [exact Hin|].
  eapply (pending_keys_stored (boot [])
            [APutWithTTLStore (Unix 0) (Unix 0) "foo" b10 Second; APutCount 0;
             APutStore (Unix 1) "bar" b10; AGetLookup "foo"; AGetLookup "bar";
             APutCount 0; ADelete "bar"; AGetFinish 0 late late]).
  - intros k Hk. assert (He : expired (mem (boot [])) = ∅) by (vm_compute; reflexivity).
    rewrite He in Hk. by apply elem_of_empty in Hk.
  - intros k Hk. assert (Hh : held (boot []) = []) by (vm_compute; reflexivity).
    rewrite Hh in Hk. by apply elem_of_nil in Hk.
  - vm_compute. reflexivity.
  - vm_compute. reflexivity.
  - exact Hin.
Defined.

(** C3 as stated fails, in runs of whole calls and in interleaved runs.
    [Get] marks an entry that is past its expiry time and a [Delete] of
    the key, or a compaction that evicts it, then removes the entry and
    keeps the mark.  A [Get] that has looked its key up marks it after a
    pass of [clear], a [Delete] or a compaction has removed the entry. *)
Lemma pending_keys_stored_counterexample :
  let late := Unix (2 * Second) in
  (∃ w, run [EvPutWithTTL (Unix 0) (Unix 0) "foo" b10 Second;
             EvGet late late "foo";
             EvDelete "foo"] (New []) = Some w
        ∧ "foo" ∈ expired (heap w)
        ∧ storage (heap w) !! "foo" = None)
  ∧ (∃ w, run [EvPutWithTTL (Unix 0) (Unix 0) "a" b12345 Second;
               EvGet late late "a";
               EvPut (Unix (3 * Second)) "b" b12345;
               EvCompact ["a"; "b"]] (New [WithSizeLimit 6]) = Some w
          ∧ "a" ∈ expired (heap w)
          ∧ storage (heap w) !! "a" = None)
  ∧ (∃ σ, acts [APutWithTTLStore (Unix 0) (Unix 0) "foo" b10 Second; APutCount 0;
                AScanExpired late; AGetLookup "foo";
                AClearLock ["foo"]; AClearKey; AClearKey;
                AGetFinish 0 late late] (boot []) = Some σ
          ∧ "foo" ∈ expired (mem σ)
          ∧ storage (mem σ) !! "foo" = None)
  ∧ (∃ σ, acts [APutWithTTLStore (Unix 0) (Unix 0) "foo" b10 Second; APutCount 0;
                AGetLookup "foo"; ADelete "foo";
                AGetFinish 0 late late] (boot []) = Some σ
          ∧ "foo" ∈ expired (mem σ)
          ∧ storage (mem σ) !! "foo" = None)
  ∧ (∃ σ, acts [APutWithTTLStore (Unix 0) (Unix 0) "a" b12345 Second; APutCount 0;
                AGetLookup "a";
                APutStore (Unix (3 * Second)) "b" b12345; APutCount 0;
                ACompactSnapshot ["a"; "b"]; ACompactLock 0;
                ACompactEvict; ACompactEvict;
                AGetFinish 0 late late] (boot [WithSizeLimit 6]) = Some σ
          ∧ "a" ∈ expired (mem σ)
          ∧ storage (mem σ) !! "a" = None).
Proof.
  intros late. split_and!;
    (eexists; split; [vm_compute; reflexivity|]; split; vm_compute; reflexivity).
Qed.

(** ** Size accounting, interleaved *)

Lemma wrap_add_r a b : Int64.wrap (a + Int64.wrap b) = Int64.wrap (a + b).
Proof. rewrite (Z.add_comm a), wrap_add_l. f_equal. lia. Qed.

Lemma wrap_eq_add a b c : Int64.wrap a = Int64.wrap b → Int64.wrap (a + c) = Int64.wrap (b + c).
Proof. intros H. by rewrite <- (wrap_add_l a), H, wrap_add_l. Qed.

Lemma sum_delete (l : list Z) n x :
  l !! n = Some x → foldr Z.add 0 (delete n l) = foldr Z.add 0 l - x.
Proof.
  revert n. induction l as [|y l IH]; intros [|n] H; simpl in *; simplify_eq.
  - lia.
  - rewrite (IH n H). lia.
Qed.

Lemma sum_snoc (l : list Z) x : foldr Z.add 0 (l ++ [x]) = foldr Z.add 0 l + x.
Proof. induction l as [|y l IH]; simpl; lia. Qed.

Lemma removal_accounted_with_pending σ key i :
  storage (mem σ) !! key = Some i →
  accounted_with_pending σ →
  accounted_with_pending
    (set_mem (λ c, set_size (λ n, Int64.add n (- len (data i)))
                     (set_storage (λ m, delete key m) c)) σ).
Proof.
  unfold accounted_with_pending, uncounted. simpl. intros Hi Ha.
  rewrite (total_size_delete key i) by done. unfold Int64.add.
  rewrite wrap_add_l.
  replace (size (mem σ) + - len (data i) + foldr Z.add 0 (counts σ))
    with (size (mem σ) + foldr Z.add 0 (counts σ) + - len (data i)) by lia.
  replace (total_size (storage (mem σ)) - len (data i))
    with (total_size (storage (mem σ)) + - len (data i)) by lia.
  by apply wrap_eq_add.
Qed.

Lemma put_store_accounted key i σ :
  stored_bytes (mem σ) key = 0 ∨ sizeLimit (mem σ) <= len (data i) →
  accounted_with_pending σ → accounted_with_pending (put_store key i σ).
Proof.
  intros Hk Ha. unfold put_store.
  destruct (Z.leb_spec (sizeLimit (mem σ)) (len (data i))); [done|].
  destruct Hk as [Hk|]; [|lia].
  unfold accounted_with_pending, uncounted, stored_bytes in *. simpl.
  rewrite sum_snoc, total_size_insert, Hk, Z.sub_0_r.
  rewrite Z.add_assoc. by apply wrap_eq_add.
Qed.

Lemma act_accounted a σ σ' :
  act a σ = Some σ' →
  stores_fresh a σ = true →
  accounted_with_pending σ → accounted_with_pending σ'.
Proof.
  intros Ha Hf Hacc.
  assert (Hfresh : ∀ key d,
    negb (bool_decide (len d < sizeLimit (mem σ) ∧ 0 < stored_bytes (mem σ) key)) = true →
    stored_bytes (mem σ) key = 0 ∨ sizeLimit (mem σ) <= len d).
  { intros key d H. apply negb_true_iff, bool_decide_eq_false in H.
    assert (0 <= stored_bytes (mem σ) key)
      by (unfold stored_bytes, len; destruct (storage (mem σ) !! key); simpl; lia).
    lia. }
  destruct a; simpl in Ha, Hf.
  - destruct (busy σ); [done|]. simplify_eq. unfold get_lookup.
    by destruct (storage (mem σ) !! key).
  - unfold get_finish in Ha. destruct (gets σ !! n) as [f|]; [|done].
    destruct (negb (IsZero (ttl (fl_item f))) && Before (ttl (fl_item f)) now).
    + by destruct (busy σ) as [[]|]; simplify_eq.
    + simplify_eq. unfold accounted_with_pending, uncounted.
      destruct (touch_rest f now' (set_gets (λ g, delete n g) σ)) as (_ & -> & _).
      destruct (touch_mem f now' (set_gets (λ g, delete n g) σ)) as [->|(j & Hj & ->)];
        [done|]. simpl in *.
      rewrite total_size_insert, Hj. simpl.
      replace (total_size (storage (mem σ)) - len (data j) + len (data j))
        with (total_size (storage (mem σ))) by lia.
      done.
  - destruct (busy σ); [done|]. simplify_eq. by rewrite locked_Has.
  - destruct (busy σ); [done|]. simplify_eq.
    destruct (locked_Delete_cases key σ) as [->|(i & Hi & ->)]; [done|].
    by apply removal_accounted_with_pending.
  - destruct (busy σ); [done|]. simplify_eq.
    apply put_store_accounted; [|done]. by apply Hfresh.
  - destruct (busy σ); [done|]. simplify_eq.
    apply put_store_accounted; [|done]. by apply Hfresh.
  - unfold put_count in Ha. destruct (counts σ !! n) as [x|] eqn:Hx; [|done].
    simplify_eq. unfold accounted_with_pending, uncounted in *. simpl.
    rewrite (sum_delete _ _ _ Hx). unfold Int64.add. rewrite wrap_add_l.
    rewrite <- Hacc. f_equal. lia.
  - destruct (busy σ); [done|]. by simplify_eq.
  - destruct (busy σ); [done|]. case_decide; [|done]. by simplify_eq.
  - destruct (busy σ) as [[|keys]|]; try done. simplify_eq.
    destruct keys as [|key keys]; [done|]. unfold clear_next.
    unfold accounted_with_pending, uncounted. simpl.
    unfold clear_key. simpl.
    destruct (storage (mem σ) !! key) as [i|] eqn:Hi; [|done].
    by apply (removal_accounted_with_pending σ key i).
  - destruct (busy σ); [done|]. destruct (started σ); [done|].
    case_decide; [|done]. destruct (snapshot keys (storage (mem σ))). by simplify_eq.
  - destruct (busy σ); [done|]. destruct (sweeps σ !! n) as [[s t]|]; [|done].
    by simplify_eq.
  - destruct (busy σ) as [[s t checking|]|]; try done. simplify_eq.
    unfold evict_next. destruct checking; [by destruct (_ <? _)|].
    destruct t as [|skey t]; [done|].
    destruct (storage (mem σ) !! default ""%string (s !! skey)) as [i|] eqn:Hi; [|done].
    by apply (removal_accounted_with_pending σ _ i).
Qed.

Lemma wrap_range z : Int64.in_range (Int64.wrap z).
Proof.
  unfold Int64.in_range, Int64.wrap, Int64.min_signed, Int64.max_signed, Int64.modulus.
  pose proof (Z.mod_pos_bound (z + 2 ^ 63) (2 ^ 64)). lia.
Qed.

Lemma act_size_range a σ σ' :
  act a σ = Some σ' →
  Int64.in_range (size (mem σ)) → Int64.in_range (size (mem σ')).
Proof.
  intros Ha Hr. destruct a; simpl in Ha.
  - destruct (busy σ); [done|]. simplify_eq. unfold get_lookup.
    by destruct (storage (mem σ) !! key).
  - unfold get_finish in Ha. destruct (gets σ !! n) as [f|]; [|done].
    destruct (negb (IsZero (ttl (fl_item f))) && Before (ttl (fl_item f)) now).
    + by destruct (busy σ) as [[]|]; simplify_eq.
    + simplify_eq.
      by destruct (touch_mem f now' (set_gets (λ g, delete n g) σ)) as [->|(j & _ & ->)].
  - destruct (busy σ); [done|]. simplify_eq. by rewrite locked_Has.
  - destruct (busy σ); [done|]. simplify_eq.
    destruct (locked_Delete_cases key σ) as [->|(i & Hi & ->)]; [done|].
    apply wrap_range.
  - destruct (busy σ); [done|]. simplify_eq. unfold put_store. by destruct (_ <=? _).
  - destruct (busy σ); [done|]. simplify_eq. unfold put_store. by destruct (_ <=? _).
  - unfold put_count in Ha. destruct (counts σ !! n) as [x|]; [|done].
    simplify_eq. apply wrap_range.
  - destruct (busy σ); [done|]. by simplify_eq.
  - destruct (busy σ); [done|]. case_decide; [|done]. by simplify_eq.
  - destruct (busy σ) as [[|keys]|]; try done. simplify_eq.
    destruct keys as [|key keys]; [done|]. simpl. unfold clear_key. simpl.
    destruct (storage (mem σ) !! key); [apply wrap_range|done].
  - destruct (busy σ); [done|]. destruct (started σ); [done|].
    case_decide; [|done]. destruct (snapshot keys (storage (mem σ))). by simplify_eq.
  - destruct (busy σ); [done|]. destruct (sweeps σ !! n) as [[s t]|]; [|done].
    by simplify_eq.
  - destruct (busy σ) as [[s t checking|]|]; try done. simplify_eq.
    unfold evict_next. destruct checking; [by destruct (_ <? _)|].
    destruct t as [|skey t]; [done|].
    destruct (storage (mem σ) !! default ""%string (s !! skey)); [apply wrap_range|done].
Qed.

Lemma boot_fields options :
  storage (mem (boot options)) = ∅
  ∧ expired (mem (boot options)) = ∅
  ∧ size (mem (boot options)) = 0.
Proof. destruct (New_fields options) as (? & ? & ? & _). done. Qed.

(** X15: let calls and passes interleave in any way after [New].  As long
    as no put replaces an entry whose data has a non-zero length, the size
    counter plus the lengths that puts have stored and not yet added is
    the sum of [len(data)] over the stored entries, modulo [2^64]; when no
    put is between its store and its addition the counter itself is that
    sum modulo [2^64], and the sum itself if it fits in an [int64]. *)
Theorem size_counts_stored_bytes options l σ :
  acts l (boot options) = Some σ →
  throughout stores_fresh l (boot options) = true →
  accounted_with_pending σ
  ∧ (counts σ = [] →
     accounted (mem σ)
     ∧ (total_size (storage (mem σ)) <= Int64.max_signed →
        size (mem σ) = total_size (storage (mem σ)))).
Proof.
  assert (Hgen : ∀ σ0, acts l σ0 = Some σ → throughout stores_fresh l σ0 = true →
                       accounted_with_pending σ0 ∧ Int64.in_range (size (mem σ0)) →
                       accounted_with_pending σ ∧ Int64.in_range (size (mem σ))).
  { induction l as [|a l IH]; intros σ0 Hr Hf Ha; simpl in Hr, Hf; [by simplify_eq|].
    apply andb_prop in Hf as [Hfa Hfl]. destruct Ha as [Ha Hrange].
    destruct (act a σ0) as [σ1|] eqn:Hs; [|done].
    apply (IH σ1); [done..|]. split.
    - by apply (act_accounted a σ0).
    - by apply (act_size_range a σ0). }
  intros Hr Hf.
  destruct (Hgen (boot options) Hr Hf) as [Ha Hrange].
  { destruct (boot_fields options) as (Hst & _ & Hsz).
    unfold accounted_with_pending, uncounted. rewrite Hst, Hsz, total_size_empty.
    split; [done|]. vm_compute. split; discriminate. }
  split; [done|]. intros Hc.
  assert (Hacc : accounted (mem σ)).
  { unfold accounted. unfold accounted_with_pending, uncounted in Ha.
    rewrite Hc in Ha. simpl in Ha. rewrite Z.add_0_r in Ha. rewrite <- Ha.
    symmetry. by apply wrap_in_range. }
  split; [done|]. intros Hmax. rewrite Hacc. apply wrap_in_range.
  pose proof (total_size_nonneg (storage (mem σ))).
  unfold Int64.in_range, Int64.min_signed. lia.
Qed.

Lemma size_counts_stored_bytes_witness :
  ∃ σ, acts [APutStore (Unix 0) "foo" b10; AGetLookup "foo";
             APutStore (Unix 1) "bar" b12345; APutCount 1; APutCount 0;
             AGetFinish 0 (Unix 2) (Unix 2); ADelete "foo"] (boot []) = Some σ
       ∧ size (mem σ) = total_size (storage (mem σ)).
Proof.
  eexists. split; [vm_compute; reflexivity|].
  eapply (size_counts_stored_bytes []
            [APutStore (Unix 0) "foo" b10; AGetLookup "foo";
             APutStore (Unix 1) "bar" b12345; APutCount 1; APutCount 0;
             AGetFinish 0 (Unix 2) (Unix 2); ADelete "foo"]).
  - vm_compute. reflexivity.
  - vm_compute. reflexivity.
  - reflexivity.
  - vm_compute. discriminate.
Defined.

(** ** Marks and expiry times, interleaved *)

Lemma marks_stale_mono R R' σ :
  (∀ r, r ∈ R → r ∈ R') → marks_stale R σ → marks_stale R' σ.
Proof.
  intros Hsub [Hm Hg]. split; [|done].
  intros k i Hk Hi. destruct (Hm k i Hk Hi) as (Hz & r & Hr & Hlt).
  split; [done|]. exists r. auto.
Qed.

(** An action that only removes entries, marks and calls in progress. *)
Lemma marks_stale_shrink R σ σ' :
  (∀ k i, storage (mem σ') !! k = Some i → storage (mem σ) !! k = Some i) →
  (∀ k, k ∈ expired (mem σ') → k ∈ expired (mem σ)) →
  (∀ f, f ∈ gets σ' → f ∈ gets σ) →
  marks_stale R σ → marks_stale R σ'.
Proof.
  intros Hst Hex Hgets [Hm Hg]. split.
  - intros k i Hk Hi. apply (Hm k i); auto.
  - intros f i Hf Hz Hi. apply (Hg f i); auto.
Qed.

Lemma act_marks_stale R a σ σ' :
  act a σ = Some σ' →
  spares_held a σ = true →
  marks_stale R σ → marks_stale (R ++ act_readings a) σ'.
Proof.
  intros Ha Hs Hm.
  assert (Hmono : marks_stale (R ++ act_readings a) σ)
    by (apply (marks_stale_mono R); [set_solver|done]).
  assert (Hput : ∀ key i0,
    negb (bool_decide (len (data i0) < sizeLimit (mem σ) ∧ key ∈ held σ)) = true →
    marks_stale (R ++ act_readings a) (put_store key i0 σ)).
  { intros key i0 Hsp. unfold put_store.
    destruct (Z.leb_spec (sizeLimit (mem σ)) (len (data i0))); [done|].
    apply negb_true_iff, bool_decide_eq_false in Hsp.
    assert (Hnh : key ∉ held σ) by (intros ?; apply Hsp; eauto).
    destruct Hmono as [Hm1 Hm2]. split; simpl.
    - intros k i [Hk Hne]%elem_of_difference.
      rewrite lookup_insert_ne by set_solver. by apply Hm1.
    - intros f i Hf Hz. rewrite lookup_insert_ne; [by apply Hm2|].
      intros ->. apply Hnh, elem_of_held. eauto. }
  destruct a; simpl in Ha, Hs.
  - (* lookup *)
    destruct (busy σ); [done|]. simplify_eq. unfold get_lookup.
    destruct (storage (mem σ) !! key) as [i|] eqn:Hi; [|done].
    destruct Hmono as [Hm1 Hm2]. split; [done|]. simpl.
    intros f j [Hf|Hf]%elem_of_app Hz; [by apply Hm2|].
    apply list_elem_of_singleton in Hf as ->. simpl. rewrite Hi. congruence.
  - (* finish *)
    unfold get_finish in Ha. destruct (gets σ !! n) as [f|] eqn:Hf; [|done].
    assert (Hfin : f ∈ gets σ) by by eapply list_elem_of_lookup_2.
    assert (Hsub : ∀ f', f' ∈ delete n (gets σ) → f' ∈ gets σ)
      by (intros f'; apply list_elem_of_delete_inv).
    destruct Hm as [Hm1 Hm2].
    destruct (negb (IsZero (ttl (fl_item f))) && Before (ttl (fl_item f)) now) eqn:Hp.
    + assert (σ' = set_mem (set_expired (λ e, {[fl_key f]} ∪ e))
                     (set_gets (λ g, delete n g) σ)) as ->
        by (destruct (busy σ) as [[]|]; by simplify_eq).
      apply past_test in Hp as [Hz Hlt]. split; simpl.
      * intros k i [->%elem_of_singleton|Hk]%elem_of_union Hi.
        -- rewrite (Hm2 f i Hfin Hz Hi). split; [done|]. exists now. set_solver.
        -- destruct (Hm1 k i Hk Hi) as (? & r & ? & ?).
           split; [done|]. exists r. set_solver.
      * intros f' i Hf'. apply Hm2. by apply Hsub.
    + simplify_eq. simpl.
      destruct (touch_rest f now' (set_gets (λ g, delete n g) σ)) as (Hg & _).
      destruct (touch_mem f now' (set_gets (λ g, delete n g) σ)) as [He|(j & Hj & He)].
      * split; rewrite ?He, ?Hg; simpl.
        -- intros k i Hk Hi. destruct (Hm1 k i Hk Hi) as (? & r & ? & ?).
           split; [done|]. exists r. set_solver.
        -- intros f' i Hf'. apply Hm2. by apply Hsub.
      * simpl in Hj.
        assert (Hlk : ∀ k i, storage (mem (touch f now' (set_gets (λ g, delete n g) σ))) !! k
                              = Some i →
                       ∃ i0, storage (mem σ) !! k = Some i0 ∧ ttl i = ttl i0).
        { intros k i. rewrite He. simpl. destruct (decide (fl_key f = k)) as [<-|Hne].
          - rewrite lookup_insert_eq. intros ?; simplify_eq. by exists j.
          - rewrite lookup_insert_ne by done. intros ?. by exists i. }
        split; rewrite ?Hg; simpl.
        -- intros k i Hk Hi. rewrite He in Hk. simpl in Hk.
           destruct (Hlk k i Hi) as (i0 & Hi0 & ->).
           destruct (Hm1 k i0 Hk Hi0) as (? & r & ? & ?).
           split; [done|]. exists r. set_solver.
        -- intros f' i Hf' Hz' Hi. destruct (Hlk _ i Hi) as (i0 & Hi0 & ->).
           apply Hm2; [by apply Hsub|done|done].
  - (* has *)
    destruct (busy σ); [done|]. simplify_eq. by rewrite locked_Has.
  - (* delete *)
    destruct (busy σ); [done|]. simplify_eq.
    destruct (locked_Delete_cases key σ) as [->|(i & Hi & ->)]; [done|].
    apply (marks_stale_shrink _ σ); simpl; try done.
    intros k j [_ H]%lookup_delete_Some. done.
  - (* put *)
    destruct (busy σ); [done|]. simplify_eq. by apply (Hput key (Item d zero now)).
  - (* put with ttl *)
    destruct (busy σ); [done|]. simplify_eq.
    by apply (Hput key (Item d (Add now t) now')).
  - (* count *)
    unfold put_count in Ha. destruct (counts σ !! n); [|done]. by simplify_eq.
  - (* scan *)
    destruct (busy σ); [done|]. simplify_eq. destruct Hm as [Hm1 Hm2].
    split; [|done]. intros k i.
    change (mem (locked (scanExpired now) σ))
      with (heap (exec (scanExpired now) (MkWorld (mem σ) (started σ)))).
    intros [Hk|(j & Hj & Hz & Hp)]%scanExpired_expired; simpl; intros Hi.
    + destruct (Hm1 k i Hk Hi) as (? & r & ? & ?). split; [done|]. exists r. set_solver.
    + simpl in Hj. simplify_eq. split; [done|]. exists now. set_solver.
  - (* clear takes the locks *)
    destruct (busy σ); [done|]. case_decide; [|done]. by simplify_eq.
  - (* clear, one key *)
    destruct (busy σ) as [[|keys]|]; try done. simplify_eq.
    destruct keys as [|key keys]; [done|].
    apply (marks_stale_shrink _ σ); simpl; try done.
    + intros k i. unfold clear_key. simpl.
      destruct (storage (mem σ) !! key); simpl; [|done].
      intros [_ H]%lookup_delete_Some. done.
    + intros k. unfold clear_key. simpl.
      destruct (storage (mem σ) !! key); simpl; set_solver.
  - (* snapshot *)
    destruct (busy σ); [done|]. destruct (started σ); [done|].
    case_decide; [|done]. destruct (snapshot keys (storage (mem σ))). by simplify_eq.
  - (* compact takes the lock *)
    destruct (busy σ); [done|]. destruct (sweeps σ !! n) as [[s t]|]; [|done].
    by simplify_eq.
  - (* evict *)
    destruct (busy σ) as [[s t checking|]|]; try done. simplify_eq.
    unfold evict_next. destruct checking; [by destruct (_ <? _)|].
    destruct t as [|skey t]; [done|].
    destruct (storage (mem σ) !! default ""%string (s !! skey)) as [i|]; [|done].
    apply (marks_stale_shrink _ σ); simpl; try done.
    intros k j [_ H]%lookup_delete_Some. done.
Qed.

Lemma acts_marks_stale l R σ σ' :
  acts l σ = Some σ' →
  throughout spares_held l σ = true →
  marks_stale R σ →
  marks_stale (R ++ concat (act_readings <$> l)) σ'.
Proof.
  revert R σ. induction l as [|a l IH]; intros R σ Hr Hs Hm; simpl in Hr, Hs.
  - simplify_eq. apply (marks_stale_mono R); [set_solver|done].
  - apply andb_prop in Hs as [Ha Hl].
    destruct (act a σ) as [σ1|] eqn:Hact; [|done].
    rewrite fmap_cons. simpl. rewrite (assoc_L (++)).
    apply (IH _ σ1); [done..|]. by apply (act_marks_stale R a σ).
Qed.

(** X16: let calls and passes interleave in any way after [New].  As long
    as no put stores under a key while a [Get] that has looked that key up
    and holds an item with an expiry time is in progress, a mark in
    [expired] is never on an entry that could still be served: an entry
    that is stored and whose key is in [expired] has an expiry time before
    one of the clock readings of the run, so at every reading [g] that is
    not before those of the run a [Get] of the key returns [ErrNotFound]
    and [Has] returns [false]. *)
Theorem marks_are_on_expired_entries options l σ k i g g' :
  acts l (boot options) = Some σ →
  throughout spares_held l (boot options) = true →
  k ∈ expired (mem σ) →
  storage (mem σ) !! k = Some i →
  (∀ r, r ∈ concat (act_readings <$> l) → r <= g) →
  ttl i ≠ zero
  ∧ ttl i < g
  ∧ eval (Get g g' k) (MkWorld (mem σ) (started σ)) = ([], Some ErrNotFound)
  ∧ eval (Has g k) (MkWorld (mem σ) (started σ)) = false.
Proof.
  intros Hr Hs Hk Hi Hlate.
  assert (Hm : marks_stale ([] ++ concat (act_readings <$> l)) σ).
  { apply (acts_marks_stale l [] (boot options) σ Hr Hs).
    destruct (boot_fields options) as (_ & He & _). split.
    - intros k' i'. rewrite He. set_solver.
    - intros f j Hf. simpl in Hf. by apply elem_of_nil in Hf. }
  destruct Hm as [Hm _]. destruct (Hm k i Hk Hi) as (Hz & r & Hin & Hlt).
  simpl in Hin. apply Hlate in Hin.
  assert (Hg : ttl i < g) by lia.
  split_and!; try done.
  - unfold eval. by rewrite (Get_expired g g' k (MkWorld (mem σ) (started σ)) i Hi Hz Hg).
  - rewrite (Has_stored g k (MkWorld (mem σ) (started σ)) i Hi).
    unfold IsZero, After, zero in *.
    apply orb_false_iff. rewrite Z.eqb_neq, Z.ltb_ge. lia.
Qed.

Lemma marks_are_on_expired_entries_witness :
  let late := Unix (2 * Second) in
  ∃ σ, acts [APutWithTTLStore (Unix 0) (Unix 0) "foo" b10 Second; AGetLookup "foo";
             APutCount 0; AScanExpired late; AGetFinish 0 late late]
            (boot []) = Some σ
       ∧ eval (Get (Unix (3 * Second)) (Unix (3 * Second)) "foo")
              (MkWorld (mem σ) (started σ)) = ([], Some ErrNotFound).
Proof.
  intros late. eexists. split; [vm_compute; reflexivity|].
  eapply (marks_are_on_expired_entries []
            [APutWithTTLStore (Unix 0) (Unix 0) "foo" b10 Second; AGetLookup "foo";
             APutCount 0; AScanExpired late; AGetFinish 0 late late]
            _ "foo" (Item b10 (Add (Unix 0) Second) (Unix 0))).
  - vm_compute. reflexivity.
  - vm_compute. reflexivity.
  - vm_compute. reflexivity.
  - vm_compute. reflexivity.
  - intros r Hr. simpl in Hr.
    repeat (apply elem_of_cons in Hr as [->|Hr]; [vm_compute; discriminate|]).
    by apply elem_of_nil in Hr.
Defined.

(** Without that proviso the property fails: a [Get] looks up an entry
    that is past its expiry time, a [PutWithTTL] replaces it, the [Get]
    then marks the key, and the next pass of [clear] removes the new entry
    one second into its hour. *)
Example Get_overlapping_PutWithTTL :
  let late := Unix (2 * Second) in
  ∃ σ σ', acts [APutWithTTLStore (Unix 0) (Unix 0) "foo" b10 Second; APutCount 0;
                AGetLookup "foo";
                APutWithTTLStore late late "foo" b12345 Hour; APutCount 0;
                AGetFinish 0 late late] (boot []) = Some σ
          ∧ storage (mem σ) !! "foo" = Some (Item b12345 (Add late Hour) late)
          ∧ "foo" ∈ expired (mem σ)
          ∧ acts [AClearLock ["foo"%string]; AClearKey; AClearKey] σ = Some σ'
          ∧ storage (mem σ') !! "foo" = None.
Proof.
  intros late. do 2 eexists.
  split; [vm_compute; reflexivity|].
  split; [vm_compute; reflexivity|].
  split; [vm_compute; reflexivity|].
  split; vm_compute; reflexivity.
Qed.

(** ** Runs of whole calls are interleaved runs *)

Lemma acts_app l1 l2 σ :
  acts (l1 ++ l2) σ = match acts l1 σ with Some σ' => acts l2 σ' | None => None end.
Proof.
  revert σ. induction l1 as [|a l1 IH]; intros σ; simpl; [done|].
  destruct (act a σ); [apply IH|done].
Qed.

Lemma at_rest_world c n o fr w :
  c = heap w → n = compactions w →
  (∀ k, is_Some (storage (heap w) !! k) → is_Some (o !! k)) →
  at_rest w (MkSys c o fr n [] [] [] None).
Proof. intros -> -> Ho. by split_and!. Qed.

Ltac open_rest σ Hr Ho :=
  destruct σ as [?c ?o ?fr ?n ?g ?cs ?sw ?b];
  destruct Hr as (?Hm & ?Hs & (?Hg & ?Hc & ?Hsw & ?Hb) & Ho);
  simpl in *; subst.

Lemma Get_interleaves now now' key w σ :
  at_rest w σ →
  ∃ l σ', acts l σ = Some σ' ∧ at_rest (exec (Get now now' key) w) σ'.
Proof.
  intros Hr. open_rest σ Hr Ho. unfold exec.
  destruct (Get_cases now now' key w)
    as [[Hk ->]|[(i & Hi & Hp & ->)|(i & Hi & Hp & ->)]]; simpl.
  - exists []. eexists. split; [reflexivity|]. by apply at_rest_world.
  - exists [AGetLookup key; AGetFinish 0 now now']. eexists.
    apply past_test in Hp. simpl. unfold get_lookup. simpl. rewrite Hi.
    unfold get_finish. simpl. rewrite Hp. simpl.
    split; [reflexivity|]. by apply at_rest_world.
  - assert (Hnp : negb (IsZero (ttl i)) && Before (ttl i) now = false).
    { destruct (negb (IsZero (ttl i)) && Before (ttl i) now) eqn:E; [|done].
      by apply past_test in E. }
    destruct (Ho key) as [id Hid]; [by rewrite Hi|].
    exists [AGetLookup key; AGetFinish 0 now now']. eexists.
    simpl. unfold get_lookup. simpl. rewrite Hi.
    unfold get_finish. simpl. rewrite Hnp. simpl.
    unfold touch. simpl. rewrite Hi, Hid. simpl. rewrite decide_True by done.
    split; [reflexivity|]. apply at_rest_world; [done..|]. simpl.
    intros k [j Hj]. apply Ho. destruct (decide (key = k)) as [->|Hne].
    + by rewrite Hi.
    + rewrite lookup_insert_ne in Hj by done. by rewrite Hj.
Qed.

Lemma PutWithTTL_compactions now now' key d t w :
  len d < sizeLimit (heap w) →
  compactions (exec (PutWithTTL now now' key d t) w) =
  if sizeLimit (heap w) <? Int64.add (size (heap w)) (len d)
  then S (compactions w) else compactions w.
Proof.
  intros H. unfold PutWithTTL. unfold_M. rewrite Zleb_false by done.
  by destruct (_ <? _).
Qed.

Lemma put_interleaves (a : Act) key i w w' σ :
  (∀ σ0, busy σ0 = None → act a σ0 = Some (put_store key i σ0)) →
  (sizeLimit (heap w) <= len (data i) → w' = w) →
  (len (data i) < sizeLimit (heap w) →
   heap w' =
     MkCache (<[key := i]> (storage (heap w))) (expired (heap w) ∖ {[key]})
             (clearExpireTimout (heap w)) (checkExpireTimout (heap w))
             (sizeLimit (heap w)) (Int64.add (size (heap w)) (len (data i)))
   ∧ compactions w' =
       if sizeLimit (heap w) <? Int64.add (size (heap w)) (len (data i))
       then S (compactions w) else compactions w) →
  at_rest w σ →
  ∃ l σ', acts l σ = Some σ' ∧ at_rest w' σ'.
Proof.
  intros Hact Hrej Hsto Hr. open_rest σ Hr Ho.
  destruct (Z.le_gt_cases (sizeLimit (heap w)) (len (data i))) as [Hle|Hgt].
  - rewrite (Hrej Hle). exists [a]. eexists. simpl. rewrite Hact by done.
    unfold put_store. simpl. rewrite Zleb_true by done.
    split; [reflexivity|]. by apply at_rest_world.
  - destruct (Hsto Hgt) as [Hh Hc]. exists [a; APutCount 0]. eexists.
    simpl. rewrite Hact by done. unfold put_store. simpl.
    rewrite Zleb_false by lia. unfold put_count. simpl.
    split; [reflexivity|]. apply at_rest_world.
    + by rewrite Hh.
    + by rewrite Hc.
    + rewrite Hh. simpl. intros k [j Hj]. destruct (decide (key = k)) as [->|Hne].
      * by rewrite lookup_insert_eq.
      * rewrite lookup_insert_ne by done. rewrite lookup_insert_ne in Hj by done.
        apply Ho. by rewrite Hj.
Qed.

Lemma Put_interleaves now key d w σ :
  at_rest w σ →
  ∃ l σ', acts l σ = Some σ' ∧ at_rest (exec (Put now key d) w) σ'.
Proof.
  apply (put_interleaves (APutStore now key d) key (Item d zero now)).
  - intros σ0 Hb. simpl. by rewrite Hb.
  - intros Hle. unfold exec. by rewrite Put_rejected.
  - intros Hlt. split; [by apply Put_stored|by apply Put_compactions].
Qed.

Lemma PutWithTTL_interleaves now now' key d t w σ :
  at_rest w σ →
  ∃ l σ', acts l σ = Some σ' ∧ at_rest (exec (PutWithTTL now now' key d t) w) σ'.
Proof.
  apply (put_interleaves (APutWithTTLStore now now' key d t) key (Item d (Add now t) now')).
  - intros σ0 Hb. simpl. by rewrite Hb.
  - intros Hle. unfold exec. by rewrite PutWithTTL_rejected.
  - intros Hlt. split; [by apply PutWithTTL_stored|by apply PutWithTTL_compactions].
Qed.

Lemma interleaves_then w1 w2 σ :
  (∀ σ1, at_rest w1 σ1 → ∃ l σ', acts l σ1 = Some σ' ∧ at_rest w2 σ') →
  (∃ l σ', acts l σ = Some σ' ∧ at_rest w1 σ') →
  ∃ l σ', acts l σ = Some σ' ∧ at_rest w2 σ'.
Proof.
  intros H2 (l1 & σ1 & Hl1 & Hr1). destruct (H2 σ1 Hr1) as (l2 & σ2 & Hl2 & Hr2).
  exists (l1 ++ l2), σ2. by rewrite acts_app, Hl1.
Qed.

(** The steps of [clear] over the keys [ks] do what the fold of
    [clear_key] does. *)
Lemma clear_steps ks c o fr n :
  acts (replicate (S (length ks)) AClearKey)
       (MkSys c o fr n [] [] [] (Some (Clearing ks)))
  = Some (MkSys (foldl (λ c k, clear_key k c) c ks) o fr n [] [] [] None).
Proof.
  revert c. induction ks as [|k ks IH]; intros c; [done|].
  change (replicate (S (length (k :: ks))) AClearKey)
    with (AClearKey :: replicate (S (length ks)) AClearKey).
  simpl acts at 1. apply IH.
Qed.

(** The steps of the second loop of [compact] do what [evict] does. *)
Lemma evict_steps s t c o fr n :
  ∃ m, acts (replicate m ACompactEvict)
            (MkSys c o fr n [] [] [] (Some (Evicting s t false)))
       = Some (MkSys (evict s t c) o fr n [] [] [] None).
Proof.
  revert c. induction t as [|skey t IH]; intros c.
  - by exists 1%nat.
  - simpl evict.
    destruct (storage c !! default ""%string (s !! skey)) as [i|] eqn:Hi.
    + destruct (Int64.add (size c) (- len (data i)) <? sizeLimit c) eqn:Hlt.
      * exists 2%nat. simpl. rewrite Hi. simpl. by rewrite Hlt.
      * destruct (IH (set_size (λ n, Int64.add n (- len (data i)))
                        (set_storage (λ m, delete (default ""%string (s !! skey)) m) c)))
          as [m Hm].
        exists (S (S m)). simpl. rewrite Hi. simpl. rewrite Hlt. simpl. exact Hm.
    + destruct (IH c) as [m Hm]. exists (S m). simpl. rewrite Hi. simpl. exact Hm.
Qed.

Lemma evict_storage_is_Some s t c k :
  is_Some (storage (evict s t c) !! k) → is_Some (storage c !! k).
Proof. intros [i Hi]. apply evict_storage_Some in Hi. eauto. Qed.

Lemma foldl_clear_key_foldr ks c :
  foldl (λ c k, clear_key k c) c ks = foldr clear_key c (reverse ks).
Proof.
  revert c. induction ks as [|k ks IH]; intros c; simpl; [done|].
  by rewrite IH, reverse_cons, foldr_app.
Qed.

Lemma locked_at_rest {A} (m : M A) w σ :
  at_rest w σ →
  compactions (exec m w) = compactions w →
  (∀ k, is_Some (storage (heap (exec m w)) !! k) → is_Some (storage (heap w) !! k)) →
  at_rest (exec m w) (locked m σ).
Proof.
  intros Hr Hc Hk. destruct w as [c n]. open_rest σ Hr Ho.
  unfold locked, set_mem. cbn [mem objs fresh started gets counts sweeps busy].
  apply at_rest_world; [done|by rewrite Hc|]. intros k Hj. by apply Ho, Hk.
Qed.

Lemma step_interleaves e w w' σ :
  step e w = Some w' →
  at_rest w σ →
  ∃ l σ', acts l σ = Some σ' ∧ at_rest w' σ'.
Proof.
  intros Hs Hr. destruct e; simpl in Hs; simplify_eq.
  - by apply Get_interleaves.
  - destruct (GetOrNew_exec now now' put_now key cb w) as [->|[d ->]].
    + by apply Get_interleaves.
    + apply (interleaves_then (exec (Get now now' key) w)).
      * intros σ1. apply Put_interleaves.
      * by apply Get_interleaves.
  - destruct (GetOrNewWithTTL_exec now now' put_now put_now' key t cb w) as [->|[d ->]].
    + by apply Get_interleaves.
    + apply (interleaves_then (exec (Get now now' key) w)).
      * intros σ1. apply PutWithTTL_interleaves.
      * by apply Get_interleaves.
  - rewrite Has_exec. exists [AHas now key], σ.
    destruct Hr as (Hm & Hst & (Hg & Hc & Hsw & Hb) & Ho).
    simpl. rewrite Hb, locked_Has. by split_and!.
  - exists [ADelete key], (locked (Delete key) σ). split.
    { simpl. by destruct Hr as (_ & _ & (_ & _ & _ & ->) & _). }
    apply locked_at_rest; [done| |].
    + by destruct (Delete_cases key w) as [->|(i & _ & ->)].
    + intros k [j Hj].
      destruct (Delete_cases key w) as [H|(i & _ & H)]; rewrite H in Hj; [eauto|].
      simpl in Hj. apply lookup_delete_Some in Hj as [_ Hj]. eauto.
  - by apply Put_interleaves.
  - by apply PutWithTTL_interleaves.
  - exists [AScanExpired now], (locked (scanExpired now) σ). split.
    { simpl. by destruct Hr as (_ & _ & (_ & _ & _ & ->) & _). }
    by apply locked_at_rest.
  - open_rest σ Hr Ho.
    set (ks := reverse (elements (expired (heap w)))).
    exists ([AClearLock ks] ++ replicate (S (length ks)) AClearKey). eexists.
    rewrite acts_app. simpl (acts [_] _).
    rewrite decide_True by (subst ks; apply reverse_Permutation).
    unfold set_busy. cbn [mem objs fresh started gets counts sweeps busy].
    rewrite clear_steps. split; [reflexivity|].
    assert (Hc : foldl (λ c k, clear_key k c) (heap w) ks = heap (exec clear w)).
    { rewrite foldl_clear_key_foldr. subst ks. by rewrite reverse_involutive. }
    rewrite Hc. apply at_rest_world; [done..|].
    intros k [j Hj]. apply Ho. rewrite clear_storage in Hj.
    case_decide; [done|eauto].
  - destruct w as [c n0]. simpl in Hs. destruct n0 as [|n]; [done|].
    case_decide as Hperm; [|done]. simplify_eq.
    open_rest σ Hr Ho.
    destruct (snapshot keys (storage c)) as [s t] eqn:Hsnap.
    destruct (evict_steps s (merge_sort Z.le t) c o fr n) as [m Hm].
    exists ([ACompactSnapshot keys; ACompactLock 0] ++ replicate m ACompactEvict).
    eexists. rewrite acts_app. simpl (acts [_; _] _).
    rewrite decide_True by done. rewrite Hsnap. simpl (acts [_] _).
    cbn [mem objs fresh started gets counts sweeps busy].
    split; [exact Hm|].
    assert (Hc : heap (exec (compact keys) (MkWorld c n)) = evict s (merge_sort Z.le t) c).
    { unfold compact. unfold_M. by rewrite Hsnap. }
    apply at_rest_world.
    + by rewrite Hc.
    + unfold compact. unfold_M. by rewrite Hsnap.
    + intros k Hk. apply Ho. rewrite Hc in Hk. by apply evict_storage_is_Some in Hk.
Qed.

(** Every run of whole calls and passes is an interleaved run: the state
    it reaches is reached, at rest, by the actions of its calls taken one
    call after the other. *)
Lemma run_interleaves tr w w' σ :
  run tr w = Some w' →
  at_rest w σ →
  ∃ l σ', acts l σ = Some σ' ∧ at_rest w' σ'.
Proof.
  revert w σ. induction tr as [|e tr IH]; intros w σ Hr Hrest; simpl in Hr.
  - simplify_eq. by exists [], σ.
  - destruct (step e w) as [w1|] eqn:Hs; [|done].
    apply (interleaves_then w1).
    + intros σ1 H1. by apply (IH w1).
    + by apply (step_interleaves e w).
Qed.

Lemma boot_at_rest options : at_rest (New options) (boot options).
Proof.
  unfold boot. apply at_rest_world; [done..|].
  intros k. destruct (New_fields options) as (-> & _). rewrite lookup_empty.
  by intros [? ?].
Qed.
